(** * Serial frame decoder of the dual-strip LED firmware

    A shallow embedding of [src/arduino/firmware/client.c]: the globals of
    the sketch become one [State] record, the body of [loop()] becomes a
    chain of small state transformers (one per group of source lines), the
    two collaborators the sketch calls into ([FastLED.show], [Serial.write],
    [Serial.println]) append to an output log, and every array access is
    bounds-checked: a transformer returns [None] exactly when the C code
    would index an array outside its declared extent. *)

From Stdlib Require Import ZArith Lia.
From Stdlib.Strings Require Import Byte String.
From stdpp Require Import base option list.

Local Open Scope Z_scope.

(** ** Machine integers

    The sketch targets the ATmega data model of the classic Arduino boards:
    [int] and [unsigned int] are 16 bits wide, [unsigned long] is 32 bits
    wide.  The values are carried as [Z]; every operation of the source
    that can wrap has its wrap-around written out with these three
    conversions. *)

Definition to_uint (z : Z) : Z := z mod 65536.
Definition to_ulong (z : Z) : Z := z mod 4294967296.
Definition to_int (z : Z) : Z := (z + 32768) mod 65536 - 32768.
Definition INT_MAX : Z := 32767.

(** [uint8 z] is the [uint8_t] that [Serial.write(int)] puts on the wire. *)
Definition uint8 (z : Z) : byte :=
  default x00 (Byte.of_N (Z.to_N (z mod 256))).

(** ** Arrays

    A C array is a list of its declared length; reading or writing outside
    of it has no defined result, which the model reports as [None]. *)

Definition array_get {A} (a : list A) (i : Z) : option A :=
  if bool_decide (0 ≤ i) then a !! Z.to_nat i else None.

Definition array_set {A} (a : list A) (i : Z) (v : A) : option (list A) :=
  if bool_decide (0 ≤ i < Z.of_nat (length a))
  then Some (<[Z.to_nat i := v]> a)
  else None.

(** ** Data model *)

Record CRGB := mkCRGB { red : byte; green : byte; blue : byte }.

(** What the sketch does to the outside world, in the order it does it. *)
Inductive Event :=
| EvShow (strip1 strip2 : list CRGB)   (* FastLED.show() pushes both arrays *)
| EvWrite (b : byte)                   (* Serial.write(b) *)
| EvPrintln (s : string).              (* Serial.println(s) *)

Record State := mkState {
  leds1 : list CRGB;          (* CRGB leds1[LED_COUNT_PER_STRIP] *)
  leds2 : list CRGB;          (* CRGB leds2[LED_COUNT_PER_STRIP] *)
  ledBuffer : list byte;      (* byte ledBuffer[3] *)
  ledIndex : Z;               (* unsigned int *)
  receivedBlocks : Z;         (* unsigned long *)
  totalBytesRead : Z;         (* unsigned long *)
  output : list Event         (* log of collaborator calls, oldest first *)
}.

Definition ACK_BYTE : Z := 0xAA.
Definition BYTES_PER_LED : Z := 3.

Section Firmware.

(** The two sizes of the sketch are kept as parameters; the shipped
    firmware has [LED_COUNT_PER_STRIP = 150] and [DATA_BLOCK_SIZE = 64]. *)
Variable LED_COUNT_PER_STRIP : Z.
Variable DATA_BLOCK_SIZE : Z.

Definition TOTAL_LED_COUNT : Z := LED_COUNT_PER_STRIP * 2.
Definition NUMBER_OF_BYTES_TO_READ : Z := TOTAL_LED_COUNT * BYTES_PER_LED.

(** *** The body of the [for] loop, lines 64-84 *)

(** Lines 64-65: [ledBuffer[ledIndex] = receivedBuffer[i]; ledIndex++;] *)
Definition stage_byte (st : State) (b : byte) : option State :=
  buf ← array_set (ledBuffer st) (ledIndex st) b;
  Some (mkState (leds1 st) (leds2 st) buf (to_uint (ledIndex st + 1))
          (receivedBlocks st) (totalBytesRead st) (output st)).

(** Line 68: [int ledPosition = totalBytesRead / 3;], an [unsigned long]
    quotient stored in an [int]. *)
Definition ledPosition_at (totalBytesRead : Z) : Z :=
  to_int (totalBytesRead / 3).

(** Lines 68-81: the pixel router.  The byte counter is sampled when the
    third byte of the triplet has been staged and not yet counted. *)
Definition route_pixel (st : State) : option State :=
  let ledPosition := ledPosition_at (totalBytesRead st) in
  if ledPosition <? TOTAL_LED_COUNT then
    r ← array_get (ledBuffer st) 0;
    g ← array_get (ledBuffer st) 1;
    b ← array_get (ledBuffer st) 2;
    if ledPosition <? LED_COUNT_PER_STRIP then
      l ← array_set (leds1 st) ledPosition (mkCRGB r g b);
      Some (mkState l (leds2 st) (ledBuffer st) (ledIndex st)
              (receivedBlocks st) (totalBytesRead st) (output st))
    else
      l ← array_set (leds2 st) (to_int (ledPosition - LED_COUNT_PER_STRIP))
             (mkCRGB r g b);
      Some (mkState (leds1 st) l (ledBuffer st) (ledIndex st)
              (receivedBlocks st) (totalBytesRead st) (output st))
  else Some st.

(** Lines 66-83: [if (ledIndex == 3) { route; ledIndex = 0; }] *)
Definition hand_off (st : State) : option State :=
  if ledIndex st =? 3 then
    st' ← route_pixel st;
    Some (mkState (leds1 st') (leds2 st') (ledBuffer st') 0
            (receivedBlocks st') (totalBytesRead st') (output st'))
  else Some st.

(** Line 84: [totalBytesRead++;] *)
Definition count_byte (st : State) : State :=
  mkState (leds1 st) (leds2 st) (ledBuffer st) (ledIndex st)
    (receivedBlocks st) (to_ulong (totalBytesRead st + 1)) (output st).

Definition for_body (st : State) (b : byte) : option State :=
  st1 ← stage_byte st b;
  st2 ← hand_off st1;
  Some (count_byte st2).

(** Lines 62-85: the [for] loop over the bytes [readBytes] delivered. *)
Fixpoint for_loop (st : State) (receivedBuffer : list byte) : option State :=
  match receivedBuffer with
  | [] => Some st
  | b :: rest => st' ← for_body st b; for_loop st' rest
  end.

(** *** The frame-completion gate, lines 87-94 *)

Definition FastLED_show (st : State) : State :=
  mkState (leds1 st) (leds2 st) (ledBuffer st) (ledIndex st)
    (receivedBlocks st) (totalBytesRead st)
    (output st ++ [EvShow (leds1 st) (leds2 st)]).

Definition Serial_write (v : Z) (st : State) : State :=
  mkState (leds1 st) (leds2 st) (ledBuffer st) (ledIndex st)
    (receivedBlocks st) (totalBytesRead st)
    (output st ++ [EvWrite (uint8 v)]).

(** Lines 91-93: [receivedBlocks = 0; totalBytesRead = 0; ledIndex = 0;] *)
Definition reset_counters (st : State) : State :=
  mkState (leds1 st) (leds2 st) (ledBuffer st) 0 0 0 (output st).

(** The test of line 87 compares an [unsigned long] with an [int]
    constant, which C converts to [unsigned long] first. *)
Definition frame_complete (st : State) : bool :=
  to_ulong NUMBER_OF_BYTES_TO_READ <=? totalBytesRead st.

Definition frame_gate (st : State) : State :=
  if frame_complete st
  then reset_counters (Serial_write ACK_BYTE (FastLED_show st))
  else st.

(** *** Byte intake, lines 57-60 *)

(** Line 59: [min((int)Serial.available(), DATA_BLOCK_SIZE)].  On the
    ATmega core [min(a,b)] is the macro [((a)<(b)?(a):(b))], so
    [Serial.available()] is read twice: the first reading is compared with
    [DATA_BLOCK_SIZE] and, when it is the smaller, the second reading is
    the value. *)
Definition bytesToRead (available1 available2 : Z) : Z :=
  if to_int available1 <? DATA_BLOCK_SIZE
  then to_int available2
  else DATA_BLOCK_SIZE.

(** A chunk is what one [readBytes] call hands to the [for] loop.  An
    admissible chunk is non-empty, as the [while] guard requires, and fits
    [receivedBuffer]; [intake] below says when line 59 yields such a
    count. *)
Definition chunk_ok (chunk : list byte) : Prop :=
  1 ≤ Z.of_nat (length chunk) ≤ DATA_BLOCK_SIZE.

(** Lines 59-94: one iteration of the [while] loop on the chunk it read. *)
Definition while_body (st : State) (chunk : list byte) : option State :=
  st' ← for_loop st chunk;
  Some (frame_gate st').

(** The sketch never leaves [loop()]: its life is the sequence of
    iterations of the [while] loop, one per chunk the transport delivers. *)
Fixpoint loop (st : State) (chunks : list (list byte)) : option State :=
  match chunks with
  | [] => Some st
  | chunk :: rest => st' ← while_body st chunk; loop st' rest
  end.

(** *** The transport, lines 57-60

    The receive queue of [Serial] is the list of the bytes that have
    arrived and have not been read, oldest first. *)

(** [Serial.available()], an [int]. *)
Definition Serial_available (rx : list byte) : Z :=
  to_int (Z.of_nat (length rx)).

(** [Serial.readBytes(receivedBuffer, n)] with at least [n] bytes queued:
    the bytes read, and the queue they leave. *)
Definition Serial_readBytes (rx : list byte) (n : Z) : list byte * list byte :=
  (take (Z.to_nat n) rx, drop (Z.to_nat n) rx).

(** What arrives around one evaluation of the guard of line 57: before
    the guard reads [Serial.available()], between that reading and the
    first reading of line 59, and between the two readings of line 59.
    What arrives later in the iteration is queued before the next guard. *)
Record Tick := mkTick {
  before_guard : list byte;
  before_first : list byte;
  before_second : list byte
}.

Definition arrived (t : Tick) : list byte :=
  before_guard t ++ before_first t ++ before_second t.

(** Nothing arrives. *)
Definition quiet : Tick := mkTick [] [] [].

(** What lines 57-60 make of the queue. *)
Inductive Intake :=
| Idle (rx : list byte)                 (* the guard fails, [loop()] returns *)
| Read (receivedBuffer rx : list byte)  (* the chunk read, the queue left *)
| Overrun.                              (* the count does not fit [receivedBuffer] *)

(** Lines 57-60.  [readBytes] takes its count as a [size_t] and stores
    that many bytes from [receivedBuffer[0]] on; [receivedBuffer] has
    [DATA_BLOCK_SIZE] slots. *)
Definition intake (rx : list byte) (t : Tick) : Intake :=
  let q0 := rx ++ before_guard t in
  let q1 := q0 ++ before_first t in
  let q2 := q1 ++ before_second t in
  if 0 <? Serial_available q0 then
    let n := bytesToRead (Serial_available q1) (Serial_available q2) in
    if (0 <=? n) && (n <=? DATA_BLOCK_SIZE)
    then Read (Serial_readBytes q2 n).1 (Serial_readBytes q2 n).2
    else Overrun
  else Idle q2.

(** One evaluation of the guard of line 57 and, when it holds, the
    iteration it lets in.  When it fails [loop()] returns, and the next
    call evaluates the guard again. *)
Definition poll (st : State) (rx : list byte) (t : Tick)
  : option (State * list byte) :=
  match intake rx t with
  | Idle rx' => Some (st, rx')
  | Read receivedBuffer rx' =>
      st' ← while_body st receivedBuffer;
      Some (st', rx')
  | Overrun => None
  end.

(** The sketch against the transport, one tick per evaluation of the
    guard. *)
Fixpoint serve (st : State) (rx : list byte) (ticks : list Tick)
  : option (State * list byte) :=
  match ticks with
  | [] => Some (st, rx)
  | t :: later =>
      r ← poll st rx t;
      serve r.1 r.2 later
  end.

(** *** Start-up *)

Definition black : CRGB := mkCRGB x00 x00 x00.

(** Globals have static storage and start zeroed. *)
Definition power_on : State :=
  mkState (replicate (Z.to_nat LED_COUNT_PER_STRIP) black)
          (replicate (Z.to_nat LED_COUNT_PER_STRIP) black)
          (replicate 3 x00) 0 0 0 [].

(** [setup()] configures the collaborators and prints a banner; it leaves
    the decoder's globals alone. *)
Definition setup (st : State) : State :=
  mkState (leds1 st) (leds2 st) (ledBuffer st) (ledIndex st)
    (receivedBlocks st) (totalBytesRead st)
    (output st ++ [EvPrintln "Arduino listening for dual strip data..."%string]).

Definition initial : State := setup power_on.

(** *** Vocabulary of the statements *)

(** The two arrays read as the one logical sequence the wire format
    addresses: strip #1 followed by strip #2. *)
Definition strips (st : State) : list CRGB := leds1 st ++ leds2 st.

(** The arrays have their declared lengths, the staging index points into
    [ledBuffer], and the counter has the sign of its type. *)
Definition wf (st : State) : Prop :=
  Z.of_nat (length (leds1 st)) = LED_COUNT_PER_STRIP ∧
  Z.of_nat (length (leds2 st)) = LED_COUNT_PER_STRIP ∧
  length (ledBuffer st) = 3%nat ∧
  0 ≤ ledIndex st < 3 ∧
  0 ≤ totalBytesRead st.

(** Number of acknowledgment bytes, and of display calls, in a log. *)
Fixpoint acks (log : list Event) : Z :=
  match log with
  | [] => 0
  | EvWrite _ :: log' => 1 + acks log'
  | _ :: log' => acks log'
  end.

Fixpoint shows (log : list Event) : Z :=
  match log with
  | [] => 0
  | EvShow _ _ :: log' => 1 + shows log'
  | _ :: log' => shows log'
  end.

(** [frame_aligned t chunks]: with [t] bytes of the current frame already
    counted, no chunk of [chunks] runs past the end of a frame, so every
    frame boundary of the byte stream is also a chunk boundary.  This is
    what a host obtains by waiting for the acknowledgment before it sends
    the next frame. *)
Fixpoint frame_aligned (t : Z) (chunks : list (list byte)) : Prop :=
  match chunks with
  | [] => True
  | chunk :: rest =>
      let t' := t + Z.of_nat (length chunk) in
      t' ≤ NUMBER_OF_BYTES_TO_READ ∧
      frame_aligned (if t' =? NUMBER_OF_BYTES_TO_READ then 0 else t') rest
  end.

(** The pixel a completed triplet stands for: the two staged bytes and the
    byte being consumed. *)
Definition staged_pixel (st : State) (b : byte) : CRGB :=
  mkCRGB (nth 0 (ledBuffer st) x00) (nth 1 (ledBuffer st) x00) b.

(** Triplet number [k] of a byte sequence, as a pixel. *)
Definition pixel_at (bytes : list byte) (k : nat) : CRGB :=
  mkCRGB (nth (3 * k) bytes x00) (nth (3 * k + 1) bytes x00)
         (nth (3 * k + 2) bytes x00).

(** The finest chunking of a byte sequence: one byte per [readBytes]. *)
Definition bytewise (bytes : list byte) : list (list byte) :=
  map (λ b, [b]) bytes.

(** What one firing of the gate adds to the log for the frame [f]. *)
Definition display_then_ack (f : list CRGB * list CRGB) : list Event :=
  [EvShow f.1 f.2; EvWrite (uint8 ACK_BYTE)].

(** What holds between two iterations of the [while] loop: the frame is
    not complete, and the staging index is the counter modulo 3. *)
Definition steady (st : State) : Prop :=
  wf st ∧
  totalBytesRead st < NUMBER_OF_BYTES_TO_READ ∧
  ledIndex st = totalBytesRead st mod 3.

(** The pixels one frame of bytes stands for, in wire order. *)
Definition decode_frame (bytes : list byte) : list CRGB :=
  map (pixel_at bytes) (seq 0 (Z.to_nat TOTAL_LED_COUNT)).

(** What one firing of the gate logs when the frame is [bytes]. *)
Definition frame_shown (bytes : list byte) : list Event :=
  display_then_ack
    (take (Z.to_nat LED_COUNT_PER_STRIP) (decode_frame bytes),
     drop (Z.to_nat LED_COUNT_PER_STRIP) (decode_frame bytes)).

(** The queue an evaluation of the guard leaves behind. *)
Definition pending_after (rx : list byte) (t : Tick) : list byte :=
  match intake rx t with
  | Idle rx' => rx'
  | Read _ rx' => rx'
  | Overrun => []
  end.

(** The count of line 59 fits [receivedBuffer]: the queue is within the
    range of [int], and when the guard holds and the first reading of line
    59 is below [DATA_BLOCK_SIZE], the second reading is at most
    [DATA_BLOCK_SIZE]. *)
Definition tick_fits (rx : list byte) (t : Tick) : Prop :=
  let q0 := rx ++ before_guard t in
  let q1 := q0 ++ before_first t in
  let q2 := q1 ++ before_second t in
  Z.of_nat (length q2) ≤ INT_MAX ∧
  (0 < Z.of_nat (length q0) → Z.of_nat (length q1) < DATA_BLOCK_SIZE →
   Z.of_nat (length q2) ≤ DATA_BLOCK_SIZE).

Fixpoint ticks_fit (rx : list byte) (ticks : list Tick) : Prop :=
  match ticks with
  | [] => True
  | t :: later => tick_fits rx t ∧ ticks_fit (pending_after rx t) later
  end.

(** A host that sends one frame per round and then waits: the ticks in
    which the frame arrives, followed by [idle] evaluations of the guard
    during which nothing arrives. *)
Definition paced_arrivals (rounds : list (list Tick * nat)) : list Tick :=
  flat_map (λ r, r.1 ++ replicate r.2 quiet) rounds.

(** Two states that differ at most in the slots of [ledBuffer] at or
    above [ledIndex], which hold bytes of triplets already handed off. *)
Definition same_but_stale (st1 st2 : State) : Prop :=
  leds1 st1 = leds1 st2 ∧ leds2 st1 = leds2 st2 ∧
  ledIndex st1 = ledIndex st2 ∧
  receivedBlocks st1 = receivedBlocks st2 ∧
  totalBytesRead st1 = totalBytesRead st2 ∧
  output st1 = output st2 ∧
  length (ledBuffer st1) = length (ledBuffer st2) ∧
  ∀ j : nat, Z.of_nat j < ledIndex st1 →
    ledBuffer st1 !! j = ledBuffer st2 !! j.

(** The states the sketch can be in between two iterations of the
    [while] loop, and between two bytes of the [for] loop. *)
Inductive between_chunks : State → Prop :=
| bc_initial : between_chunks initial
| bc_iteration st chunk st' :
    between_chunks st → chunk_ok chunk →
    while_body st chunk = Some st' → between_chunks st'.

Inductive between_bytes : State → Prop :=
| bb_prefix st0 chunk (j : nat) st :
    between_chunks st0 → chunk_ok chunk →
    for_loop st0 (take j chunk) = Some st → between_bytes st.

End Firmware.

(** ** The shipped configuration and the inputs of the examples *)

Definition shipped_strip : Z := 150.   (* LED_COUNT_PER_STRIP *)
Definition shipped_block : Z := 64.    (* DATA_BLOCK_SIZE *)

#[global] Instance chunk_ok_dec block chunk : Decision (chunk_ok block chunk).
Proof. unfold chunk_ok. apply _. Defined.

(** [cut sizes bytes] hands out [bytes] in chunks of the given sizes. *)
Fixpoint cut (sizes : list nat) (bytes : list byte) : list (list byte) :=
  match sizes with
  | [] => []
  | n :: sizes' => take n bytes :: cut sizes' (drop n bytes)
  end.

(** A stream in which every byte tells its offset: 0, 1, ..., 255, 0, ... *)
Definition ramp (n : nat) : list byte :=
  map (λ i, uint8 (Z.of_nat i)) (seq 0 n).

(** Two frames of the shipped firmware, 1800 bytes. *)
Definition two_frames : list byte := ramp 1800.

(** The host waits for each acknowledgment: a frame arrives as fourteen
    blocks of 64 bytes and one of 4, and no chunk holds bytes of two
    frames. *)
Definition paced : list (list byte) :=
  cut (replicate 14 64 ++ [4] ++ replicate 14 64 ++ [4])%nat two_frames.

(** The host does not wait: the same bytes arrive as blocks of 64. *)
Definition streamed : list (list byte) :=
  cut (replicate 28 64 ++ [8])%nat two_frames.

(** The scenario with two pixels per strip. *)
Definition px (r g b : Z) : CRGB := mkCRGB (uint8 r) (uint8 g) (uint8 b).

Definition scenario_bytes : list byte :=
  map uint8 [255; 0; 0;  0; 255; 0;  0; 0; 255;  128; 128; 128].

(** The state five bytes into the scenario: two bytes of the second
    triplet are staged. *)
Definition mid_triplet : State :=
  default (initial 2) (for_loop 2 (initial 2) (take 5 scenario_bytes)).

(** The shipped firmware after the first [n] blocks of [streamed], and
    then inside the next block, all of its bytes consumed and the gate not
    yet reached. *)
Definition run_shipped (chunks : list (list byte)) : State :=
  default (initial shipped_strip)
    (loop shipped_strip (initial shipped_strip) chunks).

Definition after_blocks (n : nat) : State := run_shipped (take n streamed).

Definition inside_block (n : nat) : State :=
  default (initial shipped_strip)
    (for_loop shipped_strip (after_blocks n) (nth n streamed [])).

(** The scenario's state when the [for] loop has consumed the whole
    frame and the gate has not yet been reached. *)
Definition frame_done : State :=
  default (initial 2) (for_loop 2 (initial 2) scenario_bytes).

(** Thirteen bytes in one chunk: the scenario's frame and one byte more. *)
Definition thirteen : list byte := scenario_bytes ++ take 1 scenario_bytes.

(** Fifteen bytes in one chunk, and the state fourteen bytes into it: the
    frame is over and the third byte of a further triplet is due. *)
Definition fifteen : list byte := scenario_bytes ++ take 3 scenario_bytes.

Definition past_frame : State :=
  default (initial 2) (for_loop 2 (initial 2) (take 14 fifteen)).

(** The scenario's frame arriving in three ticks: four bytes before the
    guard; nothing; then three bytes before the guard, one before the
    first reading of line 59 and one before the second; the rest before
    the guard of a last tick.  And two rounds of a host that waits. *)
Definition three_ticks : list Tick :=
  [mkTick (take 4 scenario_bytes) [] [];
   quiet;
   mkTick (take 3 (drop 4 scenario_bytes)) (take 1 (drop 7 scenario_bytes))
          (take 1 (drop 8 scenario_bytes));
   mkTick (drop 9 scenario_bytes) [] []].

Definition two_rounds : list (list Tick * nat) :=
  [(three_ticks, 12%nat); ([mkTick [] scenario_bytes []], 12%nat)].

(** Three bytes are queued when the guard and the first reading of line
    59 are evaluated, and nine more before the second reading. *)
Definition late_burst : Tick :=
  mkTick (take 3 scenario_bytes) [] (drop 3 scenario_bytes).

(** Start-up with three bytes of an earlier triplet left in [ledBuffer]. *)
Definition initial_stale : State :=
  mkState (leds1 (initial 2)) (leds2 (initial 2)) [xff; xff; xff]
    (ledIndex (initial 2)) (receivedBlocks (initial 2))
    (totalBytesRead (initial 2)) (output (initial 2)).

(** * Properties *)

Ltac divlia := Z.div_mod_to_equations; lia.
Ltac evaluated := by vm_compute.

Section Properties.

Variable cap : Z.
Variable block : Z.

Hypothesis cap_pos : 0 < cap.
Hypothesis block_pos : 0 < block.
Hypothesis fits_int : NUMBER_OF_BYTES_TO_READ cap + block ≤ INT_MAX.

Abbreviation frame := (NUMBER_OF_BYTES_TO_READ cap).

Lemma to_int_small z : -32768 ≤ z ≤ INT_MAX → to_int z = z.
Proof. unfold to_int, INT_MAX. intros H. rewrite Z.mod_small; lia. Qed.

Lemma to_uint_small z : 0 ≤ z < 65536 → to_uint z = z.
Proof. unfold to_uint. intros H. apply Z.mod_small; lia. Qed.

Lemma to_ulong_small z : 0 ≤ z < 4294967296 → to_ulong z = z.
Proof. unfold to_ulong. intros H. apply Z.mod_small; lia. Qed.

Lemma frame_eq : frame = 6 * cap.
Proof. unfold NUMBER_OF_BYTES_TO_READ, TOTAL_LED_COUNT, BYTES_PER_LED. lia. Qed.

(** What one pass through the [for] body does to a well-formed state. *)
Lemma for_body_spec st b :
  wf cap st → totalBytesRead st ≤ INT_MAX →
  ∃ st', for_body cap st b = Some st' ∧
    wf cap st' ∧
    totalBytesRead st' = totalBytesRead st + 1 ∧
    ledIndex st' = (ledIndex st + 1) mod 3 ∧
    ledBuffer st' = <[Z.to_nat (ledIndex st) := b]> (ledBuffer st) ∧
    receivedBlocks st' = receivedBlocks st ∧
    output st' = output st ∧
    strips st' =
      (if decide (ledIndex st = 2 ∧ totalBytesRead st / 3 < 2 * cap)
       then <[Z.to_nat (totalBytesRead st / 3) := staged_pixel st b]> (strips st)
       else strips st).
Proof.
  intros (H1 & H2 & H3 & H4 & H5) Hmax.
  destruct st as [l1 l2 buf idx rb t out]; simpl in *.
  unfold for_body, stage_byte, array_set; simpl.
  rewrite bool_decide_eq_true_2 by lia. simpl.
  rewrite to_uint_small by lia.
  unfold hand_off; simpl.
  destruct (Z.eqb_spec (idx + 1) 3) as [E|E].
  - unfold route_pixel, ledPosition_at; simpl.
    assert (Ht : 0 ≤ t / 3 ≤ INT_MAX) by (unfold INT_MAX in *; divlia).
    rewrite to_int_small by (unfold INT_MAX in *; lia).
    destruct buf as [|b0 [|b1 [|b2 [|]]]]; try discriminate.
    replace idx with 2 by lia. simpl.
    unfold TOTAL_LED_COUNT.
    destruct (Z.ltb_spec (t / 3) (cap * 2)) as [L|L]; simpl.
    + destruct (Z.ltb_spec (t / 3) cap) as [L1|L1]; simpl.
      * unfold array_set. rewrite bool_decide_eq_true_2 by lia. simpl.
        eexists; split; [reflexivity|].
        unfold wf, count_byte, strips, staged_pixel; simpl.
        rewrite length_insert, to_ulong_small by (unfold INT_MAX in *; lia).
        rewrite decide_True by lia.
        repeat split; try lia.
        symmetry; apply insert_app_l; lia.
      * rewrite to_int_small by (unfold INT_MAX in *; lia).
        unfold array_set. rewrite bool_decide_eq_true_2 by lia. simpl.
        eexists; split; [reflexivity|].
        unfold wf, count_byte, strips, staged_pixel; simpl.
        rewrite length_insert, to_ulong_small by (unfold INT_MAX in *; lia).
        rewrite decide_True by lia.
        repeat split; try lia.
        rewrite insert_app_r_alt by lia. do 2 f_equal. lia.
    + eexists; split; [reflexivity|].
      unfold wf, count_byte, strips; simpl.
      rewrite to_ulong_small by (unfold INT_MAX in *; lia).
      rewrite decide_False by lia.
      repeat split; try lia.
  - eexists; split; [reflexivity|].
    unfold wf, count_byte, strips; simpl.
    rewrite length_insert, to_ulong_small by (unfold INT_MAX in *; lia).
    rewrite decide_False by lia.
    rewrite Z.mod_small by lia.
    repeat split; try lia.
Qed.

Lemma for_loop_app st bs1 bs2 :
  for_loop cap st (bs1 ++ bs2) = for_loop cap st bs1 ≫= λ s, for_loop cap s bs2.
Proof.
  revert st. induction bs1 as [|b bs1 IH]; intros st; simpl; [done|].
  destruct (for_body cap st b) as [s|]; simpl; [apply IH|done].
Qed.

(** The [for] loop on a well-formed state: it cannot fail, it counts every
    byte, and it touches neither the log nor [receivedBlocks]. *)
Lemma for_loop_spec bs : ∀ st,
  wf cap st → totalBytesRead st + Z.of_nat (length bs) ≤ INT_MAX →
  ∃ st', for_loop cap st bs = Some st' ∧
    wf cap st' ∧
    totalBytesRead st' = totalBytesRead st + Z.of_nat (length bs) ∧
    ledIndex st' = (ledIndex st + Z.of_nat (length bs)) mod 3 ∧
    receivedBlocks st' = receivedBlocks st ∧
    output st' = output st.
Proof.
  induction bs as [|b bs IH]; intros st Hwf Hmax; simpl in *.
  - exists st. destruct Hwf as (?&?&?&?&?).
    rewrite Z.add_0_r, Z.mod_small by lia. repeat split; try done; lia.
  - destruct (for_body_spec st b) as (s & -> & Hs & Ht & Hi & _ & Hr & Ho & _);
      [done|lia|]. simpl.
    destruct (IH s) as (st' & -> & Hwf' & Ht' & Hi' & Hr' & Ho'); [done|lia|].
    exists st'. split; [done|]. split; [done|]. split; [lia|].
    split; [|split; congruence].
    rewrite Hi', Hi. divlia.
Qed.

Lemma nth_insert_eq {A} (l : list A) (i : nat) x d :
  (i < length l)%nat → nth i (<[i:=x]> l) d = x.
Proof. intros H. by rewrite nth_lookup, list_lookup_insert_eq. Qed.

Lemma nth_insert_ne {A} (l : list A) (i j : nat) x d :
  i ≠ j → nth j (<[i:=x]> l) d = nth j l d.
Proof. intros H. by rewrite !nth_lookup, list_lookup_insert_ne. Qed.

Lemma pixel_at_app bs1 bs2 (k : nat) :
  (3 * k + 2 < length bs1)%nat → pixel_at (bs1 ++ bs2) k = pixel_at bs1 k.
Proof. intros H. unfold pixel_at. by rewrite !app_nth1 by lia. Qed.

Lemma strips_length st :
  wf cap st → Z.of_nat (length (strips st)) = 2 * cap.
Proof. intros (H1 & H2 & _). unfold strips. rewrite length_app. lia. Qed.

(** Decoding from the start of a frame: after [bs] has gone through the
    [for] loop, the staging buffer holds the bytes of the triplet under
    construction, every completed triplet that addresses a pixel sits in
    its slot of the logical strip, and the slots of the triplets not yet
    completed are as they were. *)
Lemma for_loop_decodes st bs :
  wf cap st → totalBytesRead st = 0 → ledIndex st = 0 →
  Z.of_nat (length bs) ≤ INT_MAX →
  ∃ st', for_loop cap st bs = Some st' ∧
    (∀ j : nat, Z.of_nat j < Z.of_nat (length bs) mod 3 →
       nth j (ledBuffer st') x00
       = nth (Z.to_nat (3 * (Z.of_nat (length bs) / 3)) + j) bs x00) ∧
    (∀ k : nat, 3 * Z.of_nat k + 2 < Z.of_nat (length bs) →
       Z.of_nat k < 2 * cap →
       strips st' !! k = Some (pixel_at bs k)) ∧
    (∀ k : nat, Z.of_nat (length bs) ≤ 3 * Z.of_nat k + 2 →
       strips st' !! k = strips st !! k).
Proof.
  intros Hwf Ht0 Hi0. induction bs as [|b bs IH] using rev_ind; intros Hmax.
  - exists st. simpl. split; [done|].
    split; [intros j; divlia|].
    split; [intros k; lia|done].
  - rewrite length_app in Hmax; simpl in Hmax.
    destruct IH as (s & Hs & Hbuf & Hpix & Hrest); [lia|].
    destruct (for_loop_spec bs st) as (s' & Hs' & Hwfs & Hts & His & _);
      [done|lia|].
    rewrite Hs in Hs'; injection Hs' as <-.
    rewrite Ht0, Z.add_0_l in Hts. rewrite Hi0, Z.add_0_l in His.
    destruct (for_body_spec s b) as (st' & Hb & Hwf' & Ht' & Hi' & Hbuf' & _ & _ & Hstr);
      [done|lia|].
    exists st'. rewrite for_loop_app, Hs; simpl. rewrite Hb. split; [done|].
    rewrite length_app; simpl.
    remember (Z.of_nat (length bs)) as n eqn:Hn.
    replace (Z.of_nat (length bs + 1)) with (n + 1) by lia.
    pose proof (strips_length s Hwfs) as Hlen.
    assert (Hbl : length (ledBuffer s) = 3%nat) by apply Hwfs.
    split; [|split].
    + intros j Hj. rewrite Hbuf', His.
      destruct (decide (j = Z.to_nat (n `mod` 3))) as [->|Hne].
      * rewrite nth_insert_eq by divlia.
        replace (Z.to_nat (3 * (n + 1) `div` 3) + Z.to_nat (n `mod` 3))%nat
          with (length bs) by divlia.
        by rewrite nth_middle.
      * rewrite nth_insert_ne by done. rewrite Hbuf by divlia.
        rewrite app_nth1 by divlia. f_equal. divlia.
    + intros k Hk Hc. rewrite Hstr, His, Hts.
      destruct (decide (n `mod` 3 = 2 ∧ n `div` 3 < 2 * cap)) as [[Hm Hd]|Hno].
      * destruct (decide (k = Z.to_nat (n `div` 3))) as [->|Hne].
        -- rewrite list_lookup_insert_eq by lia. f_equal.
           unfold staged_pixel, pixel_at.
           rewrite (Hbuf 0%nat), (Hbuf 1%nat) by lia.
           rewrite !app_nth1 by divlia.
           replace (3 * Z.to_nat (n `div` 3) + 2)%nat with (length bs) by divlia.
           rewrite nth_middle. f_equal; f_equal; divlia.
        -- rewrite list_lookup_insert_ne by done.
           rewrite Hpix by divlia. by rewrite pixel_at_app by divlia.
      * rewrite Hpix by divlia. by rewrite pixel_at_app by divlia.
    + intros k Hk. rewrite Hstr, His, Hts.
      destruct (decide (n `mod` 3 = 2 ∧ n `div` 3 < 2 * cap)) as [[Hm Hd]|Hno];
        [rewrite list_lookup_insert_ne by divlia|]; apply Hrest; lia.
Qed.

(** *** The gate *)

Lemma frame_bounds : 0 < frame ≤ INT_MAX.
Proof. rewrite frame_eq in *. lia. Qed.

Lemma frame_complete_iff st : frame_complete cap st = true ↔ frame ≤ totalBytesRead st.
Proof.
  unfold frame_complete. pose proof frame_bounds as Hf. unfold INT_MAX in Hf.
  rewrite to_ulong_small by lia. apply Z.leb_le.
Qed.

Lemma frame_gate_idle st : totalBytesRead st < frame → frame_gate cap st = st.
Proof.
  intros H. unfold frame_gate.
  destruct (frame_complete cap st) eqn:E; [|done].
  apply frame_complete_iff in E. lia.
Qed.

Lemma frame_gate_fires st :
  frame ≤ totalBytesRead st →
  frame_gate cap st = reset_counters (Serial_write ACK_BYTE (FastLED_show st)).
Proof.
  intros H. unfold frame_gate.
  destruct (frame_complete cap st) eqn:E; [done|].
  apply frame_complete_iff in H. congruence.
Qed.

Lemma frame_gate_wf st : wf cap st → wf cap (frame_gate cap st).
Proof.
  intros (H1 & H2 & H3 & H4 & H5). unfold frame_gate.
  destruct (frame_complete cap st); [|done].
  unfold wf; simpl. repeat split; try done; lia.
Qed.

Lemma frame_gate_below st :
  0 ≤ totalBytesRead st → 0 ≤ totalBytesRead (frame_gate cap st) < frame.
Proof.
  intros H. pose proof frame_bounds.
  destruct (Z.lt_ge_cases (totalBytesRead st) frame) as [L|L].
  - rewrite frame_gate_idle by done. lia.
  - rewrite frame_gate_fires by done. simpl. lia.
Qed.

Lemma frame_gate_leds st :
  leds1 (frame_gate cap st) = leds1 st ∧ leds2 (frame_gate cap st) = leds2 st.
Proof. unfold frame_gate. by destruct (frame_complete cap st). Qed.

(** One iteration of the [while] loop on a well-formed state. *)
Lemma while_body_spec st chunk :
  wf cap st → totalBytesRead st + Z.of_nat (length chunk) ≤ INT_MAX →
  ∃ s, for_loop cap st chunk = Some s ∧
    while_body cap st chunk = Some (frame_gate cap s) ∧
    wf cap s ∧
    totalBytesRead s = totalBytesRead st + Z.of_nat (length chunk) ∧
    ledIndex s = (ledIndex st + Z.of_nat (length chunk)) mod 3 ∧
    receivedBlocks s = receivedBlocks st ∧
    output s = output st.
Proof.
  intros Hwf Hmax.
  destruct (for_loop_spec chunk st Hwf Hmax) as (s & Hs & Hrest).
  exists s. split; [done|]. split; [|done].
  unfold while_body. by rewrite Hs.
Qed.

(** *** Byte intake *)

(** Line 59 yields the length of an admissible chunk when the second
    reading is at most [block], or the first one is at least [block]. *)
Lemma bytesToRead_bounds available1 available2 :
  0 < available1 ≤ available2 → available2 ≤ INT_MAX →
  (available1 < block → available2 ≤ block) →
  1 ≤ bytesToRead block available1 available2 ≤ block ∧
  bytesToRead block available1 available2 ≤ available2.
Proof.
  intros H Hmax Hfit. unfold bytesToRead.
  rewrite !to_int_small by (unfold INT_MAX in *; lia).
  destruct (Z.ltb_spec available1 block); lia.
Qed.

(** *** Invariants of the run *)

Lemma steady_initial : steady cap (initial cap).
Proof.
  pose proof frame_bounds. unfold steady, wf; simpl.
  rewrite length_replicate. repeat split; try done; lia.
Qed.

Lemma while_body_steady st chunk :
  steady cap st → totalBytesRead st + Z.of_nat (length chunk) ≤ INT_MAX →
  ∃ st', while_body cap st chunk = Some st' ∧ steady cap st'.
Proof.
  intros (Hwf & Hlt & Hidx) Hmax.
  destruct (while_body_spec st chunk Hwf Hmax) as (s & _ & -> & Hwfs & Ht & Hi & _).
  eexists; split; [done|].
  assert (H0 : 0 ≤ totalBytesRead s) by apply Hwfs.
  split; [by apply frame_gate_wf|]. split; [by apply frame_gate_below|].
  destruct (Z.lt_ge_cases (totalBytesRead s) frame) as [L|L].
  - rewrite frame_gate_idle by done. rewrite Hi, Ht, Hidx. divlia.
  - by rewrite frame_gate_fires.
Qed.

Lemma chunk_ok_fits st chunk :
  totalBytesRead st < frame → chunk_ok block chunk →
  totalBytesRead st + Z.of_nat (length chunk) ≤ INT_MAX.
Proof. unfold chunk_ok. lia. Qed.

(** The run is total on every stream of admissible chunks. *)
Lemma loop_steady chunks : ∀ st,
  steady cap st → Forall (chunk_ok block) chunks →
  ∃ st', loop cap st chunks = Some st' ∧ steady cap st'.
Proof.
  induction chunks as [|c cs IH]; intros st Hst Hok; simpl.
  - by exists st.
  - apply Forall_cons in Hok as [Hc Hcs].
    destruct (while_body_steady st c) as (s & -> & Hs);
      [done|apply chunk_ok_fits; [apply Hst|done]|]. simpl.
    by apply IH.
Qed.

Lemma between_chunks_steady st : between_chunks cap block st → steady cap st.
Proof.
  induction 1 as [|st c st' _ IH Hc Hw].
  - apply steady_initial.
  - destruct (while_body_steady st c) as (s & Hs & Hsteady);
      [done|apply chunk_ok_fits; [apply IH|done]|].
    congruence.
Qed.

Lemma between_chunks_loop chunks : ∀ st st',
  between_chunks cap block st → Forall (chunk_ok block) chunks →
  loop cap st chunks = Some st' → between_chunks cap block st'.
Proof.
  induction chunks as [|c cs IH]; intros st st' Hst Hok Hl; simpl in Hl.
  - congruence.
  - apply Forall_cons in Hok as [Hc Hcs].
    destruct (while_body cap st c) as [s|] eqn:Hs; [|done]. simpl in Hl.
    eapply IH; [|done|done]. by eapply bc_iteration.
Qed.

Lemma between_bytes_spec st :
  between_bytes cap block st →
  wf cap st ∧ totalBytesRead st ≤ frame + block - 1 ∧
  ledIndex st = totalBytesRead st mod 3.
Proof.
  intros [st0 c j s H0 Hc Hs].
  apply between_chunks_steady in H0 as (Hwf & Hlt & Hidx).
  assert (Hj : Z.of_nat (length (take j c)) ≤ block).
  { rewrite length_take. unfold chunk_ok in Hc. lia. }
  destruct (for_loop_spec (take j c) st0) as (s' & Hs' & Hwf' & Ht & Hi & _);
    [done|lia|].
  rewrite Hs in Hs'; injection Hs' as <-.
  split; [done|]. split; [lia|]. rewrite Hi, Ht, Hidx. divlia.
Qed.

(** *** Chunkings that respect the frame boundaries *)

Lemma loop_app chunks1 chunks2 : ∀ st,
  loop cap st (chunks1 ++ chunks2)
  = loop cap st chunks1 ≫= λ s, loop cap s chunks2.
Proof.
  induction chunks1 as [|c cs IH]; intros st; simpl; [done|].
  destruct (while_body cap st c) as [s|]; simpl; [apply IH|done].
Qed.

(** A chunk that ends at or before the end of the frame can be cut into
    single bytes without changing anything. *)
Lemma while_body_bytewise chunk : ∀ st,
  wf cap st → totalBytesRead st < frame →
  totalBytesRead st + Z.of_nat (length chunk) ≤ frame →
  while_body cap st chunk = loop cap st (bytewise chunk).
Proof.
  pose proof frame_bounds as Hf.
  induction chunk as [|b c IH]; intros st Hwf Hlt Hfit; simpl in *.
  - unfold while_body; simpl. by rewrite frame_gate_idle.
  - destruct (for_body_spec st b) as (s & Hs & Hwfs & Hts & _);
      [done|lia|].
    unfold while_body at 1 2; simpl. rewrite Hs; simpl.
    destruct (Z.lt_ge_cases (totalBytesRead s) frame) as [L|L].
    + rewrite (frame_gate_idle s) by done. rewrite <- IH by (done || lia).
      done.
    + destruct c as [|b' c]; [|simpl in Hfit; lia]. simpl.
      done.
Qed.

Lemma loop_bytewise chunks : ∀ st,
  wf cap st → totalBytesRead st < frame →
  frame_aligned cap (totalBytesRead st) chunks →
  loop cap st chunks = loop cap st (bytewise (concat chunks)).
Proof.
  pose proof frame_bounds as Hf.
  induction chunks as [|c cs IH]; intros st Hwf Hlt Hal; simpl in *; [done|].
  destruct Hal as [Hfit Hal].
  unfold bytewise. rewrite map_app. fold (bytewise c) (bytewise (concat cs)).
  rewrite loop_app, <- while_body_bytewise by done.
  destruct (while_body_spec st c) as (s & _ & -> & Hwfs & Hts & _); [done|lia|].
  simpl. assert (H0 : 0 ≤ totalBytesRead s) by apply Hwfs.
  apply IH; [by apply frame_gate_wf|by apply frame_gate_below|].
  rewrite <- Hts in Hal.
  destruct (Z.eqb_spec (totalBytesRead s) frame) as [E|E].
  - by rewrite frame_gate_fires by lia.
  - by rewrite frame_gate_idle by lia.
Qed.

Lemma loop_aligned_steady chunks : ∀ st,
  steady cap st → frame_aligned cap (totalBytesRead st) chunks →
  ∃ st', loop cap st chunks = Some st' ∧ steady cap st'.
Proof.
  pose proof frame_bounds as Hf.
  induction chunks as [|c cs IH]; intros st Hst Hal; simpl in *.
  - by exists st.
  - destruct Hal as [Hfit Hal].
    destruct (while_body_spec st c) as (s & _ & Hw & Hwfs & Hts & _);
      [apply Hst|lia|].
    destruct (while_body_steady st c) as (s' & Hw' & Hs'); [done|lia|].
    rewrite Hw'; simpl. apply IH; [done|].
    rewrite Hw in Hw'; injection Hw' as <-.
    rewrite <- Hts in Hal.
    destruct (Z.eqb_spec (totalBytesRead s) frame) as [E|E].
    + by rewrite frame_gate_fires by lia.
    + by rewrite frame_gate_idle by lia.
Qed.

(** Any chunking of at most the rest of the current frame is aligned. *)
Lemma within_frame_aligned chunks : ∀ t,
  0 ≤ t → t + Z.of_nat (length (concat chunks)) ≤ frame →
  frame_aligned cap t chunks.
Proof.
  induction chunks as [|c cs IH]; intros t Ht Hfit; simpl in *; [done|].
  rewrite length_app in Hfit. split; [lia|].
  destruct (Z.eqb_spec (t + Z.of_nat (length c)) frame); apply IH; lia.
Qed.

(** C1 (amended). Chunk-boundary invariance for chunkings in which no chunk
    runs past the end of a frame: from any state the sketch can be in
    between two [while] iterations, two such chunkings of the same byte
    sequence both run to completion and end in the same state, hence with
    the same two strips and the same log, which holds the strips displayed
    at every completed frame. *)
Theorem chunk_boundary_invariance st chunks1 chunks2 :
  steady cap st →
  frame_aligned cap (totalBytesRead st) chunks1 →
  frame_aligned cap (totalBytesRead st) chunks2 →
  concat chunks1 = concat chunks2 →
  is_Some (loop cap st chunks1) ∧
  loop cap st chunks1 = loop cap st chunks2.
Proof.
  intros Hst H1 H2 Hcat. split.
  - destruct (loop_aligned_steady chunks1 st Hst H1) as (st' & -> & _). eauto.
  - destruct Hst as (Hwf & Hlt & _).
    rewrite (loop_bytewise chunks1), (loop_bytewise chunks2) by done.
    by rewrite Hcat.
Qed.

(** *** Counting acknowledgments *)

Lemma acks_app log1 log2 : acks (log1 ++ log2) = acks log1 + acks log2.
Proof. induction log1 as [|[] log1 IH]; simpl; lia. Qed.

Lemma shows_app log1 log2 : shows (log1 ++ log2) = shows log1 + shows log2.
Proof. induction log1 as [|[] log1 IH]; simpl; lia. Qed.

(** What the gate adds to the log. *)
Lemma frame_gate_output st :
  output (frame_gate cap st) =
    if decide (frame ≤ totalBytesRead st)
    then output st ++ [EvShow (leds1 st) (leds2 st); EvWrite (uint8 ACK_BYTE)]
    else output st.
Proof.
  destruct (decide _) as [L|L].
  - rewrite frame_gate_fires by done. simpl. by rewrite <- app_assoc.
  - by rewrite frame_gate_idle by lia.
Qed.

Lemma aligned_ack_count chunks : ∀ st,
  steady cap st → frame_aligned cap (totalBytesRead st) chunks →
  ∃ st', loop cap st chunks = Some st' ∧
    acks (output st') = acks (output st)
      + (totalBytesRead st + Z.of_nat (length (concat chunks))) / frame ∧
    shows (output st') = shows (output st)
      + (totalBytesRead st + Z.of_nat (length (concat chunks))) / frame ∧
    totalBytesRead st' =
      (totalBytesRead st + Z.of_nat (length (concat chunks))) mod frame.
Proof.
  pose proof frame_bounds as Hf.
  induction chunks as [|c cs IH]; intros st Hst Hal; simpl in *.
  - exists st. destruct Hst as ((_&_&_&_&H0) & Hlt & _).
    rewrite Z.add_0_r, Z.div_small, Z.mod_small by lia.
    repeat split; lia.
  - destruct Hal as [Hfit Hal].
    destruct (while_body_spec st c) as (s & _ & Hw & Hwfs & Hts & _ & _ & Ho);
      [apply Hst|lia|].
    destruct (while_body_steady st c) as (s' & Hw' & Hs'); [done|lia|].
    rewrite Hw'; simpl.
    rewrite Hw in Hw'; injection Hw' as <-.
    rewrite <- Hts in Hal. rewrite length_app, Nat2Z.inj_add, Z.add_assoc, <- Hts.
    destruct (Z.eqb_spec (totalBytesRead s) frame) as [E|E].
    + destruct (IH (frame_gate cap s)) as (st' & -> & Ha & Hsh & Ht);
        [done|by rewrite frame_gate_fires by lia|].
      exists st'. split; [done|].
      rewrite frame_gate_output, decide_True in Ha, Hsh by lia.
      rewrite frame_gate_fires in Ha, Hsh, Ht by lia. simpl in Ha, Hsh, Ht.
      rewrite acks_app in Ha. rewrite shows_app in Hsh. simpl in Ha, Hsh.
      rewrite E. set (r := Z.of_nat (length (concat cs))) in *.
      assert (Hd : (frame + r) / frame = 1 + r / frame).
      { replace (frame + r) with (1 * frame + r) by lia.
        apply Z.div_add_l; lia. }
      assert (Hm : (frame + r) mod frame = r mod frame).
      { replace (frame + r) with (r + 1 * frame) by lia.
        apply Z.mod_add; lia. }
      rewrite Hd, Hm. rewrite Ho in Ha, Hsh.
      rewrite Z.add_0_l in Ha, Hsh, Ht. repeat split; lia.
    + destruct (IH (frame_gate cap s)) as (st' & -> & Ha & Hsh & Ht);
        [done|by rewrite frame_gate_idle by lia|].
      exists st'. split; [done|].
      rewrite frame_gate_idle in Ha, Hsh, Ht by lia.
      rewrite Ho in Ha, Hsh. repeat split; lia.
Qed.

Lemma gate_never_early chunks : ∀ st,
  steady cap st → Forall (chunk_ok block) chunks →
  ∃ st', loop cap st chunks = Some st' ∧
    frame * (acks (output st') - acks (output st)) + totalBytesRead st'
      ≤ totalBytesRead st + Z.of_nat (length (concat chunks)) ∧
    shows (output st') - shows (output st)
      = acks (output st') - acks (output st).
Proof.
  pose proof frame_bounds as Hf.
  induction chunks as [|c cs IH]; intros st Hst Hok; simpl in *.
  - exists st. split; [done|]. lia.
  - apply Forall_cons in Hok as [Hc Hcs].
    pose proof (chunk_ok_fits st c (proj1 (proj2 Hst)) Hc) as Hmax.
    destruct (while_body_spec st c) as (s & _ & Hw & Hwfs & Hts & _ & _ & Ho);
      [apply Hst|done|].
    destruct (while_body_steady st c) as (s' & Hw' & Hs'); [done|done|].
    rewrite Hw'; simpl.
    rewrite Hw in Hw'; injection Hw' as <-.
    destruct (IH (frame_gate cap s)) as (st' & -> & Ha & Hsh); [done|done|].
    exists st'. split; [done|].
    rewrite length_app, Nat2Z.inj_add.
    rewrite frame_gate_output in Ha, Hsh.
    destruct (decide (frame ≤ totalBytesRead s)) as [L|L].
    + rewrite frame_gate_fires in Ha by done. simpl in Ha.
      rewrite acks_app in Ha, Hsh. rewrite shows_app in Hsh.
      simpl in Ha, Hsh. rewrite Ho in Ha, Hsh. split; nia.
    + rewrite frame_gate_idle in Ha by lia.
      rewrite Ho in Ha, Hsh. split; lia.
Qed.

(** C2 (amended). From any state between two [while] iterations: when no
    chunk runs past the end of a frame, the run emits exactly one
    acknowledgment and one display call per [frame] bytes consumed (after
    [n] more bytes their number has grown by [(t + n) / frame], so the gate
    fires exactly when the count reaches a multiple of [frame]); and for
    every stream of admissible chunks, aligned or not, the gate never fires
    early: each acknowledgment is paid for by [frame] consumed bytes. *)
Theorem ack_per_frame st :
  steady cap st →
  (∀ chunks, frame_aligned cap (totalBytesRead st) chunks →
     ∃ st', loop cap st chunks = Some st' ∧
       acks (output st') = acks (output st)
         + (totalBytesRead st + Z.of_nat (length (concat chunks))) / frame ∧
       shows (output st') = shows (output st)
         + (totalBytesRead st + Z.of_nat (length (concat chunks))) / frame ∧
       totalBytesRead st' =
         (totalBytesRead st + Z.of_nat (length (concat chunks))) mod frame) ∧
  (∀ chunks, Forall (chunk_ok block) chunks →
     ∃ st', loop cap st chunks = Some st' ∧
       frame * (acks (output st') - acks (output st)) + totalBytesRead st'
         ≤ totalBytesRead st + Z.of_nat (length (concat chunks)) ∧
       shows (output st') - shows (output st)
         = acks (output st') - acks (output st)).
Proof.
  intros Hst. split; intros chunks H.
  - by apply aligned_ack_count.
  - by apply gate_never_early.
Qed.

(** *** The shape of the log *)

Lemma log_shape chunks : ∀ st,
  steady cap st → Forall (chunk_ok block) chunks →
  ∃ st' frames, loop cap st chunks = Some st' ∧
    output st' = output st ++ flat_map display_then_ack frames.
Proof.
  induction chunks as [|c cs IH]; intros st Hst Hok; simpl.
  - exists st, []. simpl. by rewrite app_nil_r.
  - apply Forall_cons in Hok as [Hc Hcs].
    pose proof (chunk_ok_fits st c (proj1 (proj2 Hst)) Hc) as Hmax.
    destruct (while_body_spec st c) as (s & _ & Hw & _ & _ & _ & _ & Ho);
      [apply Hst|done|].
    destruct (while_body_steady st c) as (s' & Hw' & Hs'); [done|done|].
    rewrite Hw'; simpl.
    rewrite Hw in Hw'; injection Hw' as <-.
    destruct (IH (frame_gate cap s)) as (st' & frames & -> & Hout); [done|done|].
    rewrite frame_gate_output, Ho in Hout.
    destruct (decide (frame ≤ totalBytesRead s)).
    + exists st', ((leds1 s, leds2 s) :: frames). split; [done|].
      rewrite Hout. by rewrite <- app_assoc.
    + by exists st', frames.
Qed.

(** C3. When the gate fires it is the composition, in this order, of the
    display call, the write of one acknowledgment byte and the reset: the
    display is logged first with the strips as decoded, the write is logged
    next while the counters still have their values, and only then are the
    counter and the staging index zero.  Consequently the log of every run
    is made of display-then-acknowledgment pairs: no acknowledgment comes
    before the display call of its frame. *)
Theorem gate_order st chunks :
  steady cap st → Forall (chunk_ok block) chunks →
  (∃ st' frames, loop cap st chunks = Some st' ∧
     output st' = output st ++ flat_map display_then_ack frames) ∧
  (∀ s, frame_complete cap s = true →
     let shown := FastLED_show s in
     let acked := Serial_write ACK_BYTE shown in
     frame_gate cap s = reset_counters acked ∧
     output shown = output s ++ [EvShow (leds1 s) (leds2 s)] ∧
     output acked = output shown ++ [EvWrite (uint8 ACK_BYTE)] ∧
     totalBytesRead acked = totalBytesRead s ∧
     ledIndex acked = ledIndex s ∧
     output (frame_gate cap s) = output acked ∧
     totalBytesRead (frame_gate cap s) = 0 ∧
     ledIndex (frame_gate cap s) = 0).
Proof.
  intros Hst Hok. split; [by apply log_shape|].
  intros s Hs. simpl. unfold frame_gate. rewrite Hs. done.
Qed.

Lemma uint8_ack : uint8 ACK_BYTE = xaa ∧ Byte.to_N xaa = 170%N.
Proof. split; reflexivity. Qed.

Lemma acks_display_then_ack frames :
  acks (flat_map display_then_ack frames) = Z.of_nat (length frames).
Proof. induction frames as [|f frames IH]; simpl; lia. Qed.

(** C10. The acknowledgment byte is 0xAA.  In every run from start-up on
    admissible chunks the log is the banner followed by one pair per
    completed frame, a display call and then the write of the byte 0xAA;
    so exactly as many bytes have been written as frames were completed,
    and every byte written with [Serial.write] is 0xAA.  An iteration
    that brings the counter to the frame size or beyond writes exactly one
    byte, 0xAA, after its display call; any other iteration writes
    nothing. *)
Theorem ack_value chunks :
  Forall (chunk_ok block) chunks →
  (∃ st' frames, loop cap (initial cap) chunks = Some st' ∧
     output st' = output (initial cap)
       ++ flat_map (λ f, [EvShow f.1 f.2; EvWrite xaa]) frames ∧
     acks (output st') = Z.of_nat (length frames) ∧
     ∀ b, EvWrite b ∈ output st' → b = xaa ∧ Byte.to_N b = 0xAA%N) ∧
  (∀ st chunk, between_chunks cap block st → chunk_ok block chunk →
     ∃ s st', for_loop cap st chunk = Some s ∧
       while_body cap st chunk = Some st' ∧
       (frame ≤ totalBytesRead st + Z.of_nat (length chunk) →
          output st' = output st ++ [EvShow (leds1 s) (leds2 s); EvWrite xaa]) ∧
       (totalBytesRead st + Z.of_nat (length chunk) < frame →
          output st' = output st)).
Proof.
  intros Hok. split.
  - destruct (log_shape chunks (initial cap) steady_initial Hok)
      as (st' & frames & Hl & Hout).
    exists st', frames. split; [done|]. split; [done|]. split.
    + rewrite Hout, acks_app, acks_display_then_ack. simpl. lia.
    + intros b Hb. rewrite Hout in Hb. simpl in Hb.
      apply elem_of_cons in Hb as [Hb|Hb]; [done|].
      apply list_elem_of_In, in_flat_map in Hb as (f & _ & Hf).
      simpl in Hf. destruct Hf as [Hf|[Hf|[]]]; [done|].
      injection Hf as <-. apply uint8_ack.
  - intros st chunk Hst Hc.
    apply between_chunks_steady in Hst as (Hwf & Hlt & _).
    destruct (while_body_spec st chunk) as (s & Hs & Hw & _ & Hts & _ & _ & Ho);
      [done|by eapply chunk_ok_fits|].
    exists s, (frame_gate cap s). split; [done|]. split; [done|].
    rewrite frame_gate_output, Ho, Hts. split; intros H.
    + by rewrite decide_True by done.
    + by rewrite decide_False by lia.
Qed.

(** *** Routing *)

Lemma loop_empty_chunks chunks : ∀ st,
  totalBytesRead st < frame → concat chunks = [] →
  loop cap st chunks = Some st.
Proof.
  induction chunks as [|c cs IH]; intros st Hlt Hnil; simpl in *; [done|].
  apply app_eq_nil in Hnil as [-> Hnil].
  unfold while_body; simpl. rewrite frame_gate_idle by done. by apply IH.
Qed.

(** While the chunks stay within the current frame, the strips are those
    the [for] loop alone computes on the concatenated bytes. *)
Lemma loop_within_frame chunks : ∀ st,
  wf cap st → totalBytesRead st < frame →
  totalBytesRead st + Z.of_nat (length (concat chunks)) ≤ frame →
  ∃ s st', for_loop cap st (concat chunks) = Some s ∧
    loop cap st chunks = Some st' ∧
    leds1 st' = leds1 s ∧ leds2 st' = leds2 s.
Proof.
  pose proof frame_bounds as Hf.
  induction chunks as [|c cs IH]; intros st Hwf Hlt Hfit; simpl in *.
  - by exists st, st.
  - rewrite length_app in Hfit.
    destruct (while_body_spec st c) as (s1 & Hfl & Hw & Hwfs & Hts & _);
      [done|lia|].
    rewrite for_loop_app, Hfl, Hw; simpl.
    destruct (Z.lt_ge_cases (totalBytesRead s1) frame) as [L|L].
    + rewrite frame_gate_idle by done. apply IH; [done|done|lia].
    + assert (Hnil : concat cs = []) by (apply length_zero_iff_nil; lia).
      rewrite Hnil; simpl. exists s1, (frame_gate cap s1).
      split; [done|]. split; [|apply frame_gate_leds].
      apply loop_empty_chunks; [|done].
      apply frame_gate_below, Hwfs.
Qed.

Lemma ledPosition_at_small t :
  0 ≤ t ≤ INT_MAX → ledPosition_at t = t / 3.
Proof.
  intros H. unfold ledPosition_at. apply to_int_small.
  unfold INT_MAX in *. divlia.
Qed.

(** C4. Routing is a function of the byte offset within the frame.  Start
    at a frame boundary and feed, in chunks cut anywhere, at most one frame
    of bytes: the run succeeds and, for every offset [o] whose triplet is
    complete, the pixel made of the three bytes of triplet [o / 3] is in
    strip #1 at index [o / 3] when [o / 3 < cap], and otherwise in strip #2
    at index [o / 3 - cap].  The position computed from the byte counter
    is [o / 3] wherever in the triplet the counter is sampled. *)
Theorem pixel_routing st chunks :
  wf cap st → totalBytesRead st = 0 → ledIndex st = 0 →
  Z.of_nat (length (concat chunks)) ≤ frame →
  ∃ st', loop cap st chunks = Some st' ∧
    ∀ o, 0 ≤ o → 3 * (o / 3) + 2 < Z.of_nat (length (concat chunks)) →
      let k := o / 3 in
      let pixel := pixel_at (concat chunks) (Z.to_nat k) in
      ledPosition_at (3 * k) = k ∧
      ledPosition_at o = k ∧
      ledPosition_at (3 * k + 2) = k ∧
      (k < cap → leds1 st' !! Z.to_nat k = Some pixel) ∧
      (cap ≤ k → leds2 st' !! Z.to_nat (k - cap) = Some pixel).
Proof.
  pose proof frame_bounds as Hf. intros Hwf Ht0 Hi0 Hlen.
  destruct (loop_within_frame chunks st) as (s & st' & Hs & Hl & H1 & H2);
    [done|lia|lia|].
  destruct (for_loop_decodes st (concat chunks)) as (s' & Hs' & _ & Hpix & _);
    [done|done|done|lia|].
  rewrite Hs in Hs'; injection Hs' as <-.
  destruct (for_loop_spec (concat chunks) st) as (s' & Hs' & Hwfs & _);
    [done|lia|].
  rewrite Hs in Hs'; injection Hs' as <-.
  exists st'. split; [done|]. intros o Ho Hfull k pixel.
  assert (Hk : 0 ≤ k < 2 * cap) by (rewrite frame_eq in Hlen; subst k; divlia).
  rewrite !ledPosition_at_small by (subst k; unfold INT_MAX in *; divlia).
  split; [subst k; divlia|]. split; [done|]. split; [subst k; divlia|].
  specialize (Hpix (Z.to_nat k)).
  rewrite Z2Nat.id in Hpix by lia. specialize (Hpix Hfull (proj2 Hk)).
  destruct Hwfs as (Hl1 & Hl2 & _). unfold strips in Hpix.
  rewrite H1, H2. split; intros Hc.
  - by rewrite lookup_app_l in Hpix by lia.
  - rewrite lookup_app_r in Hpix by lia.
    replace (Z.to_nat (k - cap)) with (Z.to_nat k - length (leds1 s))%nat by lia.
    done.
Qed.

(** *** Bounds of the pixel writes *)

Lemma strips_inj st st' :
  length (leds1 st') = length (leds1 st) →
  strips st' = strips st →
  leds1 st' = leds1 st ∧ leds2 st' = leds2 st.
Proof. intros Hlen Heq. by apply app_inj_1. Qed.

(** C6. At every point a run can reach, the next pass through the [for]
    body performs no access outside an array and counts its byte.  When
    that byte completes a triplet whose position is at or beyond
    [2 * cap], neither strip changes; when the position is below [cap]
    the only write is to strip #1 at that position, and otherwise it is to
    strip #2 at the position minus [cap], which lies in [0, cap). *)
Theorem overrun_discarded st b :
  between_bytes cap block st →
  ∃ st', for_body cap st b = Some st' ∧
    totalBytesRead st' = totalBytesRead st + 1 ∧
    Z.of_nat (length (leds1 st)) = cap ∧
    Z.of_nat (length (leds2 st)) = cap ∧
    let p := ledPosition_at (totalBytesRead st) in
    (ledIndex st ≠ 2 → leds1 st' = leds1 st ∧ leds2 st' = leds2 st) ∧
    (ledIndex st = 2 → 2 * cap ≤ p →
       leds1 st' = leds1 st ∧ leds2 st' = leds2 st) ∧
    (ledIndex st = 2 → p < cap →
       0 ≤ p < cap ∧
       leds1 st' = <[Z.to_nat p := staged_pixel st b]> (leds1 st) ∧
       leds2 st' = leds2 st) ∧
    (ledIndex st = 2 → cap ≤ p < 2 * cap →
       0 ≤ p - cap < cap ∧
       leds1 st' = leds1 st ∧
       leds2 st' = <[Z.to_nat (p - cap) := staged_pixel st b]> (leds2 st)).
Proof.
  intros Hbb. apply between_bytes_spec in Hbb as (Hwf & Hmax & _).
  destruct (for_body_spec st b) as (st' & Hb & Hwf' & Ht & _ & _ & _ & _ & Hstr);
    [done|lia|].
  exists st'. split; [done|]. split; [done|].
  pose proof Hwf as (Hl1 & Hl2 & _ & _ & H0).
  pose proof Hwf' as (Hl1' & Hl2' & _).
  split; [done|]. split; [done|]. simpl.
  rewrite ledPosition_at_small by lia.
  assert (Hp : 0 ≤ totalBytesRead st / 3) by divlia.
  split; [|split; [|split]].
  - intros Hi. rewrite decide_False in Hstr by lia.
    apply strips_inj; [lia|done].
  - intros Hi Hp2. rewrite decide_False in Hstr by lia.
    apply strips_inj; [lia|done].
  - intros Hi Hp1. rewrite decide_True in Hstr by lia. split; [lia|].
    unfold strips in Hstr. rewrite insert_app_l in Hstr by lia.
    apply app_inj_1 in Hstr; [done|]. rewrite length_insert. lia.
  - intros Hi Hp12. rewrite decide_True in Hstr by lia. split; [lia|].
    unfold strips in Hstr. rewrite insert_app_r_alt in Hstr by lia.
    apply app_inj_1 in Hstr as [-> ->]; [|lia].
    split; [done|]. do 2 f_equal. lia.
Qed.

(** *** The counter *)

(** C7 (amended). Between two iterations of the [while] loop the counter is
    in [0, frame).  Between two bytes of a chunk it is at most
    [frame + block - 1], and at most [frame] when the chunk does not run
    past the end of the frame.  An iteration either leaves the counter at
    its value after the chunk, below [frame], or finds it at or above
    [frame] and resets it to 0, once, after having logged the display call
    of that frame (and the acknowledgment). *)
Theorem counter_bounds :
  (∀ st, between_chunks cap block st → 0 ≤ totalBytesRead st < frame) ∧
  (∀ st, between_bytes cap block st →
     0 ≤ totalBytesRead st ≤ frame + block - 1) ∧
  (∀ st chunk (j : nat) s,
     between_chunks cap block st →
     totalBytesRead st + Z.of_nat (length chunk) ≤ frame →
     for_loop cap st (take j chunk) = Some s →
     0 ≤ totalBytesRead s ≤ frame) ∧
  (∀ st chunk,
     between_chunks cap block st → chunk_ok block chunk →
     ∃ s st', for_loop cap st chunk = Some s ∧
       while_body cap st chunk = Some st' ∧
       totalBytesRead s = totalBytesRead st + Z.of_nat (length chunk) ∧
       ((totalBytesRead s < frame ∧ st' = s) ∨
        (frame ≤ totalBytesRead s ∧ totalBytesRead st' = 0 ∧
         output st' = output st ++ display_then_ack (leds1 s, leds2 s)))).
Proof.
  pose proof frame_bounds as Hf.
  split; [|split; [|split]].
  - intros st Hst. apply between_chunks_steady in Hst as ((_&_&_&_&H0) & Hlt & _).
    lia.
  - intros st Hst. pose proof (between_bytes_spec st Hst) as ((_&_&_&_&H0) & Hle & _).
    lia.
  - intros st chunk j s Hst Hfit Hs.
    apply between_chunks_steady in Hst as (Hwf & Hlt & _).
    assert (Hj : (length (take j chunk) ≤ length chunk)%nat)
      by (rewrite length_take; lia).
    destruct (for_loop_spec (take j chunk) st) as (s' & Hs' & Hwf' & Ht & _);
      [done|lia|].
    rewrite Hs in Hs'; injection Hs' as <-.
    destruct Hwf as (_&_&_&_&H0). lia.
  - intros st chunk Hst Hc.
    apply between_chunks_steady in Hst as (Hwf & Hlt & _).
    destruct (while_body_spec st chunk) as (s & Hs & Hw & Hwfs & Hts & _ & _ & Ho);
      [done|by eapply chunk_ok_fits|].
    exists s, (frame_gate cap s). split; [done|]. split; [done|]. split; [done|].
    destruct (Z.lt_ge_cases (totalBytesRead s) frame) as [L|L].
    + left. by rewrite frame_gate_idle.
    + right. split; [done|].
      rewrite frame_gate_output, decide_True, Ho by done.
      by rewrite frame_gate_fires.
Qed.

(** *** The staging index *)

Lemma route_pixel_ledIndex st r :
  route_pixel cap st = Some r → ledIndex r = ledIndex st.
Proof.
  unfold route_pixel. intros H.
  destruct (_ <? TOTAL_LED_COUNT cap); [|by injection H as <-].
  destruct (array_get (ledBuffer st) 0); [|done]. simpl in H.
  destruct (array_get (ledBuffer st) 1); [|done]. simpl in H.
  destruct (array_get (ledBuffer st) 2); [|done]. simpl in H.
  destruct (_ <? cap).
  - destruct (array_set (leds1 st) _ _); simpl in H; [|done].
    by injection H as <-.
  - destruct (array_set (leds2 st) _ _); simpl in H; [|done].
    by injection H as <-.
Qed.

(** C8. At every point between two bytes the staging index is 0, 1 or 2.
    Staging a byte raises it by one, to 1, 2 or 3; it is 3 exactly when the
    triplet is handed to the router, which runs with the index still 3,
    and the hand-off leaves it at 0; otherwise the hand-off does nothing.
    After the byte is counted the index is again 0, 1 or 2. *)
Theorem staging_index st b :
  between_bytes cap block st →
  0 ≤ ledIndex st ≤ 2 ∧
  ∃ s1 s2, stage_byte st b = Some s1 ∧
    hand_off cap s1 = Some s2 ∧
    for_body cap st b = Some (count_byte s2) ∧
    ledIndex s1 = ledIndex st + 1 ∧
    1 ≤ ledIndex s1 ≤ 3 ∧
    (ledIndex s1 = 3 →
       ∃ r, route_pixel cap s1 = Some r ∧ ledIndex r = 3 ∧ ledIndex s2 = 0) ∧
    (ledIndex s1 < 3 → s2 = s1) ∧
    0 ≤ ledIndex (count_byte s2) ≤ 2.
Proof.
  intros Hbb. apply between_bytes_spec in Hbb as (Hwf & Hmax & _).
  destruct (for_body_spec st b) as (st' & Hb & _); [done|lia|].
  destruct Hwf as (_ & _ & Hbuf & Hidx & _). split; [lia|].
  unfold for_body in Hb.
  destruct (stage_byte st b) as [s1|] eqn:Hs1; [|done]. simpl in Hb.
  destruct (hand_off cap s1) as [s2|] eqn:Hs2; [|done]. simpl in Hb.
  exists s1, s2. split; [done|]. split; [done|].
  split; [unfold for_body; rewrite Hs1; simpl; by rewrite Hs2|].
  assert (Hi1 : ledIndex s1 = ledIndex st + 1).
  { unfold stage_byte in Hs1.
    destruct (array_set (ledBuffer st) (ledIndex st) b); [|done].
    injection Hs1 as <-. simpl. apply to_uint_small. lia. }
  split; [done|]. split; [lia|].
  unfold hand_off in Hs2.
  destruct (Z.eqb_spec (ledIndex s1) 3) as [E|E].
  - destruct (route_pixel cap s1) as [r|] eqn:Hr; [|done].
    injection Hs2 as <-. simpl.
    split; [|split; [lia|lia]].
    intros _. exists r. split; [done|].
    apply route_pixel_ledIndex in Hr. split; [congruence|done].
  - injection Hs2 as <-. split; [done|]. split; [done|]. simpl. lia.
Qed.

(** *** Chunks that run past the end of the frame *)

Lemma excess_ignored excess : ∀ s,
  wf cap s → frame ≤ totalBytesRead s →
  totalBytesRead s + Z.of_nat (length excess) ≤ INT_MAX →
  ∃ s', for_loop cap s excess = Some s' ∧
    leds1 s' = leds1 s ∧ leds2 s' = leds2 s.
Proof.
  induction excess as [|b e IH]; intros s Hwf Hge Hmax; simpl in *.
  - by exists s.
  - destruct (for_body_spec s b) as (s1 & -> & Hwf1 & Ht & _ & _ & _ & _ & Hstr);
      [done|lia|]. simpl.
    rewrite decide_False in Hstr by (rewrite frame_eq in Hge; divlia).
    apply strips_inj in Hstr as [H1 H2];
      [|destruct Hwf as (?&_), Hwf1 as (?&_); lia].
    destruct (IH s1) as (s' & -> & H1' & H2'); [done|lia|lia|].
    exists s'. split; [done|]. split; congruence.
Qed.

(** C9. A chunk that runs past the end of the frame: the gate fires once,
    at the end of the chunk, and adds one display call and one
    acknowledgment to the log; the strips displayed and kept are those
    reached when the last byte of the frame was consumed, so the excess
    bytes of the chunk are written to neither strip; and the counter and
    the staging index are 0 afterwards, so those bytes count for nothing
    in the next frame. *)
Theorem overlong_chunk st chunk :
  between_chunks cap block st → chunk_ok block chunk →
  frame < totalBytesRead st + Z.of_nat (length chunk) →
  let inside := Z.to_nat (frame - totalBytesRead st) in
  ∃ s st', for_loop cap st (take inside chunk) = Some s ∧
    totalBytesRead s = frame ∧
    while_body cap st chunk = Some st' ∧
    output st' = output st ++ display_then_ack (leds1 s, leds2 s) ∧
    leds1 st' = leds1 s ∧ leds2 st' = leds2 s ∧
    totalBytesRead st' = 0 ∧ ledIndex st' = 0.
Proof.
  pose proof frame_bounds as Hf.
  intros Hst Hc Hover inside.
  apply between_chunks_steady in Hst as (Hwf & Hlt & _).
  pose proof (chunk_ok_fits st chunk Hlt Hc) as Hmax.
  pose proof Hwf as (_&_&_&_&H0).
  assert (Hin : length (take inside chunk) = inside)
    by (rewrite length_take; subst inside; lia).
  assert (Hdrop : (length (drop inside chunk) = length chunk - inside)%nat)
    by apply length_drop.
  destruct (for_loop_spec (take inside chunk) st) as (s & Hs & Hwfs & Hts & _ & _ & Ho);
    [done|lia|].
  assert (Hfull : totalBytesRead s = frame) by (subst inside; lia).
  destruct (excess_ignored (drop inside chunk) s) as (s' & Hs' & H1 & H2);
    [done|lia|lia|].
  destruct (for_loop_spec (drop inside chunk) s) as (s'' & Hs'' & _ & Hts' & _ & _ & Ho');
    [done|lia|].
  rewrite Hs' in Hs''; injection Hs'' as <-.
  exists s, (frame_gate cap s'). split; [done|]. split; [done|].
  split.
  { unfold while_body. rewrite <- (take_drop inside chunk) at 1.
    by rewrite for_loop_app, Hs; simpl; rewrite Hs'. }
  rewrite frame_gate_output, decide_True by lia.
  rewrite frame_gate_fires by lia. simpl.
  unfold display_then_ack; simpl. rewrite H1, H2, Ho', Ho. done.
Qed.

(** *** The transport *)

Lemma Serial_available_small rx :
  Z.of_nat (length rx) ≤ INT_MAX →
  Serial_available rx = Z.of_nat (length rx).
Proof. intros H. apply to_int_small. lia. Qed.

(** What lines 57-60 make of a queue whose count fits. *)
Lemma intake_spec rx t :
  tick_fits block rx t →
  match intake block rx t with
  | Idle q => rx ++ before_guard t = [] ∧ q = rx ++ arrived t
  | Read c q => chunk_ok block c ∧ c ++ q = rx ++ arrived t
  | Overrun => False
  end.
Proof.
  unfold tick_fits, intake, arrived.
  set (q0 := rx ++ before_guard t). set (q1 := q0 ++ before_first t).
  set (q2 := q1 ++ before_second t). intros (Hmax & Hfit).
  assert (Hq : rx ++ before_guard t ++ before_first t ++ before_second t = q2)
    by (subst q0 q1 q2; by rewrite !app_assoc).
  assert (H01 : Z.of_nat (length q0) ≤ Z.of_nat (length q1))
    by (subst q1; rewrite length_app; lia).
  assert (H12 : Z.of_nat (length q1) ≤ Z.of_nat (length q2))
    by (subst q2; rewrite length_app; lia).
  rewrite !Serial_available_small by lia.
  destruct (Z.ltb_spec 0 (Z.of_nat (length q0))) as [Hpos|Hzero].
  - pose proof (bytesToRead_bounds (Z.of_nat (length q1)) (Z.of_nat (length q2)))
      as (Hn & Hn2); [lia|lia|lia|].
    set (n := bytesToRead block _ _) in *.
    replace ((0 <=? n) && (n <=? block)) with true
      by (symmetry; apply andb_true_intro; split; apply Z.leb_le; lia).
    unfold Serial_readBytes; simpl. split.
    + unfold chunk_ok. rewrite length_take. lia.
    + by rewrite take_drop.
  - split; [|done]. apply length_zero_iff_nil. lia.
Qed.

(** One evaluation of the guard whose count fits: the decoder is fed no
    chunk or one admissible chunk, and no byte is lost. *)
Lemma poll_spec st rx t :
  steady cap st → tick_fits block rx t →
  ∃ st' chunks,
    poll cap block st rx t = Some (st', pending_after block rx t) ∧
    steady cap st' ∧
    loop cap st chunks = Some st' ∧
    Forall (chunk_ok block) chunks ∧
    concat chunks ++ pending_after block rx t = rx ++ arrived t.
Proof.
  intros Hst Hfit. pose proof (intake_spec rx t Hfit) as Hin.
  unfold poll, pending_after.
  destruct (intake block rx t) as [q|c q|]; [| |done].
  - destruct Hin as [_ ->]. by exists st, [].
  - destruct Hin as [Hc Hcat].
    destruct (while_body_steady st c) as (st' & Hw & Hst');
      [done|apply chunk_ok_fits; [apply Hst|done]|].
    exists st', [c]. simpl. rewrite Hw; simpl.
    split; [done|]. split; [done|]. split; [done|].
    split; [by apply Forall_singleton|]. by rewrite app_nil_r.
Qed.

Lemma serve_chunks ticks : ∀ st rx,
  steady cap st → ticks_fit block rx ticks →
  ∃ st' pending chunks,
    serve cap block st rx ticks = Some (st', pending) ∧
    steady cap st' ∧
    loop cap st chunks = Some st' ∧
    Forall (chunk_ok block) chunks ∧
    concat chunks ++ pending = rx ++ concat (map arrived ticks).
Proof.
  induction ticks as [|t later IH]; intros st rx Hst Hfit; simpl in *.
  - exists st, rx, []. simpl. by rewrite app_nil_r.
  - destruct Hfit as [Hfit Hlater].
    destruct (poll_spec st rx t Hst Hfit) as (st1 & chunks1 & -> & Hst1 & Hl1 & Hok1 & Hcat1).
    simpl.
    destruct (IH st1 (pending_after block rx t)) as (st' & pending & chunks & Hs & Hst' & Hl & Hok & Hcat);
      [done|done|].
    exists st', pending, (chunks1 ++ chunks).
    split; [done|]. split; [done|].
    split; [by rewrite loop_app, Hl1|].
    split; [by apply Forall_app|].
    by rewrite concat_app, <- app_assoc, Hcat, app_assoc, Hcat1, <- app_assoc.
Qed.

(** X1. Byte intake feeds the decoder admissible chunks and loses nothing.
    Let bytes arrive in any amount before each of the three readings of
    [Serial.available()] of an iteration, and suppose only that the count
    of line 59 fits at each evaluation of the guard ([ticks_fit]: the
    queue is within the range of [int] and, when the guard holds and the
    first reading of line 59 is below [block], the second is at most
    [block]).  Then the sketch ends in the state [loop] reaches on some
    list of chunks of 1 to [block] bytes, and those chunks followed by the
    bytes still queued are exactly the bytes that were queued or arrived,
    in order. *)
Theorem intake_serves_chunks st rx ticks :
  steady cap st → ticks_fit block rx ticks →
  ∃ st' pending chunks,
    serve cap block st rx ticks = Some (st', pending) ∧
    loop cap st chunks = Some st' ∧
    Forall (chunk_ok block) chunks ∧
    concat chunks ++ pending = rx ++ concat (map arrived ticks).
Proof.
  intros Hst Hfit.
  destruct (serve_chunks ticks st rx Hst Hfit)
    as (st' & pending & chunks & Hs & _ & Hl & Hok & Hcat).
  by exists st', pending, chunks.
Qed.

Lemma overrun_iff rx t :
  let q0 := rx ++ before_guard t in
  let q1 := q0 ++ before_first t in
  let q2 := q1 ++ before_second t in
  Z.of_nat (length q2) ≤ INT_MAX →
  0 < Z.of_nat (length q0) → Z.of_nat (length q1) < block →
  block < Z.of_nat (length q2) →
  intake block rx t = Overrun.
Proof.
  intros q0 q1 q2 Hmax H0 H1 H2.
  assert (H01 : Z.of_nat (length q0) ≤ Z.of_nat (length q1))
    by (subst q1; rewrite length_app; lia).
  unfold intake. fold q0. fold q1. fold q2.
  rewrite !Serial_available_small by lia.
  destruct (Z.ltb_spec 0 (Z.of_nat (length q0))); [|lia].
  unfold bytesToRead. rewrite !to_int_small by (unfold INT_MAX in *; lia).
  destruct (Z.ltb_spec (Z.of_nat (length q1)) block); [|lia].
  destruct (Z.leb_spec (Z.of_nat (length q2)) block); [lia|].
  by rewrite andb_false_r.
Qed.

(** X8. When lines 57-60 overrun [receivedBuffer].  With the queue within
    the range of [int], the count handed to [readBytes] exceeds [block]
    exactly when the guard holds, the first reading of line 59 is below
    [block] and the second reading is above [block]; then the iteration
    has no defined result.  In every other case the guard fails and the
    queue is kept, or a chunk of 1 to [block] bytes is read, and no byte
    is lost. *)
Theorem intake_overrun rx t :
  let q0 := rx ++ before_guard t in
  let q1 := q0 ++ before_first t in
  let q2 := q1 ++ before_second t in
  Z.of_nat (length q2) ≤ INT_MAX →
  (intake block rx t = Overrun ↔
     0 < Z.of_nat (length q0) ∧ Z.of_nat (length q1) < block ∧
     block < Z.of_nat (length q2)) ∧
  (intake block rx t = Overrun → ∀ st, poll cap block st rx t = None) ∧
  (intake block rx t ≠ Overrun →
     match intake block rx t with
     | Idle q => q0 = [] ∧ q = q2
     | Read c q => chunk_ok block c ∧ c ++ q = q2
     | Overrun => False
     end).
Proof.
  intros q0 q1 q2 Hmax.
  assert (Hq : rx ++ arrived t = q2)
    by (subst q0 q1 q2; unfold arrived; by rewrite !app_assoc).
  assert (Hfit : ¬ (0 < Z.of_nat (length q0) ∧ Z.of_nat (length q1) < block ∧
                    block < Z.of_nat (length q2)) → tick_fits block rx t).
  { intros Hno. unfold tick_fits. fold q0. fold q1. fold q2.
    split; [done|]. lia. }
  split; [|split].
  - split.
    + intros Hover.
      destruct (decide (0 < Z.of_nat (length q0) ∧ Z.of_nat (length q1) < block ∧
                        block < Z.of_nat (length q2))) as [|Hno]; [done|].
      exfalso. pose proof (intake_spec rx t (Hfit Hno)) as Hspec.
      by rewrite Hover in Hspec.
    + intros (H0 & H1 & H2). by apply overrun_iff.
  - intros Hover st. unfold poll. by rewrite Hover.
  - intros Hne.
    assert (Hno : ¬ (0 < Z.of_nat (length q0) ∧ Z.of_nat (length q1) < block ∧
                     block < Z.of_nat (length q2))).
    { intros (H0 & H1 & H2). apply Hne. by apply overrun_iff. }
    pose proof (intake_spec rx t (Hfit Hno)) as Hspec.
    destruct (intake block rx t); [|by rewrite <- Hq|done].
    destruct Hspec as [H0 ->]. by rewrite <- Hq.
Qed.

Lemma tick_fits_quiet rx :
  Z.of_nat (length rx) ≤ INT_MAX → tick_fits block rx quiet.
Proof.
  intros H. unfold tick_fits; simpl. rewrite !app_nil_r. split; [done|lia].
Qed.

(** An evaluation of the guard during which nothing arrives. *)
Lemma poll_quiet st rx :
  steady cap st → Z.of_nat (length rx) ≤ INT_MAX →
  let n := Z.to_nat (Z.min (Z.of_nat (length rx)) block) in
  ∃ st', steady cap st' ∧
    poll cap block st rx quiet = Some (st', drop n rx) ∧
    if decide (rx = [])
    then st' = st
    else while_body cap st (take n rx) = Some st' ∧
         chunk_ok block (take n rx).
Proof.
  intros Hst Hlen n. unfold poll, intake; simpl. rewrite !app_nil_r.
  rewrite Serial_available_small by done.
  destruct (decide (rx = [])) as [->|Hne].
  - exists st. simpl. by rewrite drop_nil.
  - assert (Hpos : 0 < Z.of_nat (length rx)).
    { destruct rx; [done|simpl; lia]. }
    destruct (Z.ltb_spec 0 (Z.of_nat (length rx))) as [_|]; [|lia].
    assert (Hn : bytesToRead block (Z.of_nat (length rx)) (Z.of_nat (length rx))
                 = Z.of_nat n).
    { unfold bytesToRead. rewrite to_int_small by (unfold INT_MAX in *; lia).
      destruct (Z.ltb_spec (Z.of_nat (length rx)) block); subst n; lia. }
    rewrite Hn.
    replace ((0 <=? Z.of_nat n) && (Z.of_nat n <=? block)) with true
      by (symmetry; apply andb_true_intro; split; apply Z.leb_le; subst n; lia).
    unfold Serial_readBytes; simpl. rewrite Nat2Z.id.
    assert (Hok : chunk_ok block (take n rx)).
    { unfold chunk_ok. rewrite length_take. subst n. lia. }
    destruct (while_body_steady st (take n rx)) as (st' & Hw & Hst');
      [done|apply chunk_ok_fits; [apply Hst|done]|].
    exists st'. rewrite Hw. done.
Qed.

Lemma serve_idle (n : nat) st :
  serve cap block st [] (replicate n quiet) = Some (st, []).
Proof. induction n as [|n IH]; simpl; [done|]. apply IH. Qed.

Lemma blocks_count len n :
  0 < len → n = Z.min len block →
  1 + (len - n + block - 1) / block = (len + block - 1) / block.
Proof.
  intros Hlen ->. destruct (Z.le_gt_cases len block) as [L|L].
  - rewrite Z.min_l by lia.
    replace (len - len + block - 1) with (block - 1) by lia.
    rewrite Z.div_small by lia.
    replace (len + block - 1) with (len - 1 + 1 * block) by lia.
    rewrite Z.div_add by lia. rewrite Z.div_small by lia. lia.
  - rewrite Z.min_r by lia.
    replace (len + block - 1) with (len - block + block - 1 + 1 * block) by lia.
    rewrite Z.div_add by lia. lia.
Qed.

Lemma serve_drains (fuel : nat) : ∀ st rx,
  steady cap st → Z.of_nat (length rx) ≤ INT_MAX →
  (length rx ≤ fuel)%nat →
  ∃ st' chunks,
    serve cap block st rx (replicate fuel quiet) = Some (st', []) ∧
    loop cap st chunks = Some st' ∧
    concat chunks = rx ∧
    Forall (chunk_ok block) chunks ∧
    (∀ (i : nat) c, chunks !! i = Some c → (S i < length chunks)%nat →
       Z.of_nat (length c) = block) ∧
    Z.of_nat (length chunks) = (Z.of_nat (length rx) + block - 1) / block ∧
    (rx = [] → st' = st).
Proof.
  induction fuel as [|fuel IH]; intros st rx Hst Hlen Hfuel.
  - destruct rx; [|simpl in Hfuel; lia].
    exists st, []. simpl. rewrite Z.div_small by lia. repeat split; done.
  - simpl.
    destruct (poll_quiet st rx Hst Hlen) as (st1 & Hst1 & Hp & Hcase).
    rewrite Hp; simpl.
    set (n := Z.to_nat (Z.min (Z.of_nat (length rx)) block)) in *.
    destruct (decide (rx = [])) as [->|Hne].
    + subst st1. exists st, []. rewrite drop_nil, serve_idle. simpl.
      rewrite Z.div_small by lia. repeat split; done.
    + destruct Hcase as [Hw Hc].
      assert (Hpos : 0 < Z.of_nat (length rx)).
      { destruct rx; [done|simpl; lia]. }
      destruct (IH st1 (drop n rx)) as (st' & chunks & Hs & Hl & Hcat & Hok & Hfull & Hcount & _);
        [done|rewrite length_drop; lia|rewrite length_drop; subst n; lia|].
      exists st', (take n rx :: chunks). simpl. rewrite Hw; simpl.
      split; [done|]. split; [done|].
      split; [by rewrite Hcat, take_drop|].
      split; [by apply Forall_cons|].
      rewrite length_drop in Hcount.
      split; [|split; [|done]].
      * intros [|i] c Hi Hlt; simpl in *.
        -- injection Hi as <-. rewrite length_take.
           destruct (decide (length rx ≤ n)%nat) as [Hle|Hgt]; [|subst n; lia].
           exfalso.
           replace (Z.of_nat (length rx - n)) with 0 in Hcount by lia.
           rewrite Z.div_small in Hcount by lia. lia.
        -- apply (Hfull i c); [done|lia].
      * rewrite Nat2Z.inj_succ, Hcount.
        rewrite <- (blocks_count (Z.of_nat (length rx)) (Z.of_nat n))
          by (subst n; lia).
        replace (Z.of_nat (length rx - n))
          with (Z.of_nat (length rx) - Z.of_nat n) by (subst n; lia).
        lia.
Qed.

(** X2. One call of [loop()] on a queue that receives nothing more: after
    as many evaluations of the guard as there are queued bytes (or more)
    the queue is empty; the decoder has been fed the queued bytes, in
    order, cut into [(len + block - 1) / block] chunks, each of [block]
    bytes except possibly the last; with an empty queue nothing happens. *)
Theorem drain_in_blocks (fuel : nat) st rx :
  steady cap st → Z.of_nat (length rx) ≤ INT_MAX →
  (length rx ≤ fuel)%nat →
  ∃ st' chunks,
    serve cap block st rx (replicate fuel quiet) = Some (st', []) ∧
    loop cap st chunks = Some st' ∧
    concat chunks = rx ∧
    Forall (chunk_ok block) chunks ∧
    (∀ (i : nat) c, chunks !! i = Some c → (S i < length chunks)%nat →
       Z.of_nat (length c) = block) ∧
    Z.of_nat (length chunks) = (Z.of_nat (length rx) + block - 1) / block ∧
    (rx = [] → st' = st).
Proof. apply serve_drains. Qed.

(** *** Whole frames *)

Lemma decode_frame_strips s f :
  wf cap s → Z.of_nat (length f) = frame →
  (∀ k : nat, 3 * Z.of_nat k + 2 < Z.of_nat (length f) →
     Z.of_nat k < 2 * cap → strips s !! k = Some (pixel_at f k)) →
  strips s = decode_frame cap f.
Proof.
  intros Hwf Hlen Hpix. pose proof (strips_length s Hwf) as Hl.
  rewrite frame_eq in Hlen.
  apply list_eq. intros i. unfold decode_frame, TOTAL_LED_COUNT.
  rewrite list_lookup_fmap.
  destruct (decide (i < Z.to_nat (cap * 2))%nat) as [L|L].
  - rewrite lookup_seq_lt by done. simpl. apply Hpix; lia.
  - rewrite lookup_seq_ge by lia. simpl. apply lookup_ge_None_2. lia.
Qed.

(** One frame, byte by byte, from a frame boundary. *)
Lemma frame_step st f :
  wf cap st → totalBytesRead st = 0 → ledIndex st = 0 →
  Z.of_nat (length f) = frame →
  ∃ st', loop cap st (bytewise f) = Some st' ∧
    wf cap st' ∧ totalBytesRead st' = 0 ∧ ledIndex st' = 0 ∧
    strips st' = decode_frame cap f ∧
    output st' = output st ++ frame_shown cap f.
Proof.
  pose proof frame_bounds as Hf. intros Hwf Ht0 Hi0 Hlen.
  rewrite <- while_body_bytewise by (done || lia).
  destruct (while_body_spec st f) as (s & Hs & -> & Hwfs & Hts & _ & _ & Ho);
    [done|lia|].
  destruct (for_loop_decodes st f) as (s' & Hs' & _ & Hpix & _);
    [done|done|done|lia|].
  rewrite Hs in Hs'; injection Hs' as <-.
  pose proof (decode_frame_strips s f Hwfs Hlen Hpix) as Hdec.
  eexists. split; [done|]. split; [by apply frame_gate_wf|].
  rewrite frame_gate_output, decide_True by lia.
  rewrite frame_gate_fires by lia. simpl.
  split; [done|]. split; [done|]. split; [done|].
  rewrite Ho. f_equal. unfold frame_shown, display_then_ack; simpl.
  destruct Hwfs as (Hl1 & _). rewrite <- Hdec. unfold strips.
  replace (Z.to_nat cap) with (length (leds1 s)) by lia.
  by rewrite take_app_length, drop_app_length.
Qed.

Lemma frames_bytewise frames : ∀ st,
  wf cap st → totalBytesRead st = 0 → ledIndex st = 0 →
  Forall (λ f, Z.of_nat (length f) = frame) frames →
  ∃ st', loop cap st (bytewise (concat frames)) = Some st' ∧
    wf cap st' ∧ totalBytesRead st' = 0 ∧ ledIndex st' = 0 ∧
    output st' = output st ++ flat_map (frame_shown cap) frames ∧
    ∀ f, last frames = Some f → strips st' = decode_frame cap f.
Proof.
  induction frames as [|f fs IH]; intros st Hwf Ht0 Hi0 Hall; simpl.
  - exists st. rewrite app_nil_r. do 5 (split; [done|]). done.
  - apply Forall_cons in Hall as [Hlen Hall].
    unfold bytewise. rewrite map_app.
    fold (bytewise f) (bytewise (concat fs)). rewrite loop_app.
    destruct (frame_step st f) as (s & -> & Hwfs & Hts & His & Hstr & Ho);
      [done|done|done|done|]. simpl.
    destruct (IH s) as (st' & Hl' & Hwf' & Ht' & Hi' & Ho' & Hlast);
      [done|done|done|done|].
    exists st'. split; [done|]. split; [done|]. split; [done|].
    split; [done|]. split; [by rewrite Ho', Ho, <- app_assoc|].
    intros g Hg. rewrite last_cons in Hg.
    destruct (last fs) as [g'|] eqn:E.
    + injection Hg as <-. by apply Hlast.
    + injection Hg as <-. apply last_None in E. subst fs.
      simpl in *. congruence.
Qed.

(** X3. Whole frames end to end.  Start at a frame boundary and deliver a
    stream made of complete frames in chunks none of which runs past the
    end of a frame: the log gains, for each frame in order, one display
    call showing exactly the pixels of that frame (the first [cap] in
    strip #1, the rest in strip #2) followed by one acknowledgment; the
    strips end up holding the last frame, whatever they held before; and
    the counter and the staging index are back at 0. *)
Theorem frames_displayed st frames chunks :
  wf cap st → totalBytesRead st = 0 → ledIndex st = 0 →
  Forall (λ f, Z.of_nat (length f) = frame) frames →
  frame_aligned cap 0 chunks →
  concat chunks = concat frames →
  ∃ st', loop cap st chunks = Some st' ∧
    output st' = output st ++ flat_map (frame_shown cap) frames ∧
    totalBytesRead st' = 0 ∧ ledIndex st' = 0 ∧
    ∀ f, last frames = Some f → strips st' = decode_frame cap f.
Proof.
  pose proof frame_bounds as Hf. intros Hwf Ht0 Hi0 Hall Hal Hcat.
  rewrite loop_bytewise by (done || lia || by rewrite Ht0).
  rewrite Hcat.
  destruct (frames_bytewise frames st) as (st' & Hl & _ & Ht & Hi & Ho & Hlast);
    [done|done|done|done|].
  by exists st'.
Qed.

(** *** A host that waits for the acknowledgment *)

Lemma serve_app ticks1 ticks2 : ∀ st rx,
  serve cap block st rx (ticks1 ++ ticks2)
  = serve cap block st rx ticks1 ≫= λ r, serve cap block r.1 r.2 ticks2.
Proof.
  induction ticks1 as [|t a IH]; intros st rx; simpl; [done|].
  destruct (poll cap block st rx t) as [r|]; simpl; [apply IH|done].
Qed.

(** One round: the ticks in which one frame arrives into an empty queue,
    then enough evaluations of the guard with no arrival to drain it. *)
Lemma round_served st ticks (idle : nat) :
  wf cap st → totalBytesRead st = 0 → ledIndex st = 0 →
  ticks_fit block [] ticks →
  Z.of_nat (length (concat (map arrived ticks))) = frame →
  frame ≤ Z.of_nat idle →
  ∃ st', serve cap block st [] (ticks ++ replicate idle quiet) = Some (st', []) ∧
    wf cap st' ∧ totalBytesRead st' = 0 ∧ ledIndex st' = 0 ∧
    strips st' = decode_frame cap (concat (map arrived ticks)) ∧
    output st' = output st ++ frame_shown cap (concat (map arrived ticks)).
Proof.
  pose proof frame_bounds as Hf. intros Hwf Ht0 Hi0 Hfit Hlen Hidle.
  assert (Hst : steady cap st).
  { split; [done|]. rewrite Ht0, Hi0. split; [lia|done]. }
  destruct (serve_chunks ticks st []) as (st1 & pending & chunks & Hs & Hst1 & Hl & Hok & Hcat);
    [done|done|].
  simpl in Hcat.
  assert (Hp : Z.of_nat (length pending) ≤ frame).
  { rewrite <- Hlen, <- Hcat, length_app. lia. }
  destruct (serve_drains idle st1 pending) as (st2 & chunks2 & Hs2 & Hl2 & Hcat2 & _);
    [done|lia|lia|].
  assert (Hrun : loop cap st (chunks ++ chunks2) = Some st2).
  { by rewrite loop_app, Hl. }
  assert (Hall : concat (chunks ++ chunks2) = concat (map arrived ticks)).
  { by rewrite concat_app, Hcat2. }
  rewrite loop_bytewise, Hall in Hrun; [|done|lia|].
  2:{ rewrite Ht0. apply within_frame_aligned; [done|]. rewrite Hall. lia. }
  destruct (frame_step st (concat (map arrived ticks))) as (st' & Hfs & Hrest);
    [done|done|done|done|].
  rewrite Hrun in Hfs; injection Hfs as <-.
  exists st2. split; [|done].
  by rewrite serve_app, Hs.
Qed.

(** X7. Waiting for the acknowledgment is enough.  Start at a frame
    boundary with an empty queue; in each round the host sends one frame,
    its bytes arriving in any amounts before any of the three readings of
    [Serial.available()], provided the count of line 59 fits at each
    evaluation of the guard ([ticks_fit]), and then sends nothing for at
    least as many evaluations of the guard as the frame has bytes.  Then
    every round ends with an empty queue and the log gains, per round and
    in order, one display call of exactly that frame followed by one
    acknowledgment; the strips end up holding the last frame. *)
Theorem host_paced rounds : ∀ st,
  wf cap st → totalBytesRead st = 0 → ledIndex st = 0 →
  Forall (λ r : list Tick * nat,
            ticks_fit block [] r.1 ∧
            Z.of_nat (length (concat (map arrived r.1))) = frame ∧
            frame ≤ Z.of_nat r.2)
         rounds →
  ∃ st', serve cap block st [] (paced_arrivals rounds) = Some (st', []) ∧
    output st'
      = output st
        ++ flat_map (λ r, frame_shown cap (concat (map arrived r.1))) rounds ∧
    totalBytesRead st' = 0 ∧ ledIndex st' = 0 ∧
    wf cap st' ∧
    ∀ r, last rounds = Some r →
      strips st' = decode_frame cap (concat (map arrived r.1)).
Proof.
  induction rounds as [|r rounds IH]; intros st Hwf Ht0 Hi0 Hall; simpl.
  - exists st. rewrite app_nil_r. do 5 (split; [done|]). done.
  - apply Forall_cons in Hall as [(Hfit & Hlen & Hidle) Hall].
    rewrite serve_app.
    destruct (round_served st r.1 r.2) as (s & -> & Hwfs & Hts & His & Hstr & Ho);
      [done|done|done|done|done|done|]. simpl.
    destruct (IH s) as (st' & Hs' & Ho' & Ht' & Hi' & Hwf' & Hlast);
      [done|done|done|done|].
    exists st'. split; [done|].
    split; [by rewrite Ho', Ho, <- app_assoc|].
    split; [done|]. split; [done|]. split; [done|].
    intros g Hg. rewrite last_cons in Hg.
    destruct (last rounds) as [g'|] eqn:E.
    + injection Hg as <-. by apply Hlast.
    + injection Hg as <-. apply last_None in E. subst rounds.
      simpl in Hs'. injection Hs' as <-. done.
Qed.

(** *** Incomplete frames *)

Lemma loop_below_frame chunks : ∀ st,
  wf cap st →
  totalBytesRead st + Z.of_nat (length (concat chunks)) < frame →
  loop cap st chunks = for_loop cap st (concat chunks).
Proof.
  pose proof frame_bounds as Hf.
  induction chunks as [|c cs IH]; intros st Hwf Hlt; simpl in *; [done|].
  rewrite length_app in Hlt.
  destruct (while_body_spec st c) as (s & Hs & -> & Hwfs & Hts & _);
    [done|lia|].
  rewrite for_loop_app, Hs; simpl.
  rewrite frame_gate_idle by lia. apply IH; [done|lia].
Qed.

(** X4. Until a frame is complete nothing shows.  Start at a frame
    boundary and deliver fewer bytes than a frame, in chunks cut anywhere:
    the log is unchanged (no display call, no acknowledgment), the counter
    is the number of bytes delivered and the staging index is that number
    modulo 3, and every pixel whose triplet is not yet complete is as it
    was before. *)
Theorem partial_frame st chunks :
  wf cap st → totalBytesRead st = 0 → ledIndex st = 0 →
  Z.of_nat (length (concat chunks)) < frame →
  ∃ st', loop cap st chunks = Some st' ∧
    output st' = output st ∧
    totalBytesRead st' = Z.of_nat (length (concat chunks)) ∧
    ledIndex st' = Z.of_nat (length (concat chunks)) mod 3 ∧
    ∀ k : nat, Z.of_nat (length (concat chunks)) ≤ 3 * Z.of_nat k + 2 →
      strips st' !! k = strips st !! k.
Proof.
  pose proof frame_bounds as Hf. intros Hwf Ht0 Hi0 Hlt.
  rewrite loop_below_frame by (done || lia).
  destruct (for_loop_spec (concat chunks) st) as (s & Hs & _ & Hts & His & _ & Ho);
    [done|lia|].
  destruct (for_loop_decodes st (concat chunks)) as (s' & Hs' & _ & _ & Hrest);
    [done|done|done|lia|].
  rewrite Hs in Hs'; injection Hs' as <-.
  exists s. split; [done|]. split; [done|].
  rewrite Ht0 in Hts. rewrite Hi0 in His. simpl in Hts, His.
  split; [lia|]. split; [by rewrite His, Z.add_0_l|done].
Qed.

(** *** Bytes left in the staging buffer *)

Lemma same_but_stale_wf st1 st2 :
  wf cap st1 → same_but_stale st1 st2 → wf cap st2.
Proof.
  intros (H1 & H2 & H3 & H4 & H5) (E1 & E2 & E3 & _ & E5 & _ & E7 & _).
  unfold wf. rewrite <- E1, <- E2, <- E3, <- E5, <- E7. done.
Qed.

Lemma for_body_stale st1 st2 b :
  wf cap st1 → totalBytesRead st1 ≤ INT_MAX → same_but_stale st1 st2 →
  ∃ a c, for_body cap st1 b = Some a ∧ for_body cap st2 b = Some c ∧
    same_but_stale a c.
Proof.
  intros Hwf Hmax Hsame.
  pose proof (same_but_stale_wf st1 st2 Hwf Hsame) as Hwf2.
  destruct Hsame as (E1 & E2 & E3 & E4 & E5 & E6 & E7 & E8).
  destruct (for_body_spec st1 b) as (a & Ha & Hwfa & Hta & Hia & Hba & Hra & Hoa & Hsa);
    [done|done|].
  destruct (for_body_spec st2 b) as (c & Hc & Hwfc & Htc & Hic & Hbc & Hrc & Hoc & Hsc);
    [done|lia|].
  exists a, c. split; [done|]. split; [done|].
  pose proof Hwf as (_ & _ & Hl3 & Hidx & _).
  assert (Hstr : strips a = strips c).
  { rewrite Hsa, Hsc, <- E3, <- E5. unfold strips. rewrite <- E1, <- E2.
    destruct (decide _) as [[Hi2 _]|]; [|done].
    f_equal. unfold staged_pixel.
    rewrite !nth_lookup, (E8 0%nat), (E8 1%nat) by lia. done. }
  apply strips_inj in Hstr as [Hl1 Hl2];
    [|destruct Hwfa as (?&_), Hwfc as (?&_); lia].
  unfold same_but_stale.
  split; [done|]. split; [done|]. split; [congruence|]. split; [congruence|].
  split; [congruence|]. split; [congruence|].
  rewrite Hba, Hbc, !length_insert, <- E3. split; [done|].
  intros j Hj. rewrite Hia in Hj.
  destruct (decide (j = Z.to_nat (ledIndex st1))) as [->|Hne].
  - by rewrite !list_lookup_insert_eq by lia.
  - rewrite !list_lookup_insert_ne by done. apply E8. divlia.
Qed.

Lemma for_loop_stale bs : ∀ st1 st2,
  wf cap st1 → totalBytesRead st1 + Z.of_nat (length bs) ≤ INT_MAX →
  same_but_stale st1 st2 →
  ∃ a c, for_loop cap st1 bs = Some a ∧ for_loop cap st2 bs = Some c ∧
    same_but_stale a c.
Proof.
  induction bs as [|b bs IH]; intros st1 st2 Hwf Hmax Hsame; simpl in *.
  - by exists st1, st2.
  - destruct (for_body_spec st1 b) as (a' & Ha' & Hwfa & Hta & _); [done|lia|].
    destruct (for_body_stale st1 st2 b) as (a & c & Ha & -> & Hac);
      [done|lia|done|].
    rewrite Ha in Ha'; injection Ha' as <-. rewrite Ha; simpl.
    apply IH; [done|lia|done].
Qed.

Lemma frame_gate_stale s1 s2 :
  same_but_stale s1 s2 →
  same_but_stale (frame_gate cap s1) (frame_gate cap s2).
Proof.
  intros (E1 & E2 & E3 & E4 & E5 & E6 & E7 & E8).
  unfold frame_gate, frame_complete. rewrite <- E5.
  destruct (_ <=? _); [|done].
  unfold same_but_stale; simpl. rewrite E1, E2, E6.
  do 7 (split; [done|]). intros j Hj. lia.
Qed.

(** X5. Bytes left in the staging buffer by triplets already handed off
    are never used.  Two states that differ only in slots of [ledBuffer]
    at or above [ledIndex] (after a reset, in all three slots) stay in
    that relation along every run on the same admissible chunks: the same
    pixels are written to the strips, the counters agree, and the same
    display calls and acknowledgments are logged. *)
Theorem stale_bytes_unused chunks : ∀ st1 st2,
  steady cap st1 → same_but_stale st1 st2 →
  Forall (chunk_ok block) chunks →
  ∃ a c, loop cap st1 chunks = Some a ∧ loop cap st2 chunks = Some c ∧
    same_but_stale a c.
Proof.
  induction chunks as [|ch chunks IH]; intros st1 st2 Hst Hsame Hok; simpl.
  - by exists st1, st2.
  - apply Forall_cons in Hok as [Hc Hcs].
    pose proof (chunk_ok_fits st1 ch (proj1 (proj2 Hst)) Hc) as Hmax.
    destruct (while_body_steady st1 ch) as (s & Hw & Hs); [done|done|].
    destruct (for_loop_stale ch st1 st2) as (a & c & Ha & Hc' & Hac);
      [apply Hst|done|done|].
    unfold while_body in *. rewrite Ha in Hw. rewrite Ha, Hc'. simpl in *.
    injection Hw as <-.
    apply IH; [done|by apply frame_gate_stale|done].
Qed.

(** *** Alignment of the two counters *)

Lemma between_chunks_receivedBlocks st :
  between_chunks cap block st → receivedBlocks st = 0.
Proof.
  induction 1 as [|st c st' Hbc IH Hc Hw]; [done|].
  apply between_chunks_steady in Hbc as (Hwf & Hlt & _).
  destruct (while_body_spec st c) as (s & _ & Hw' & _ & _ & _ & Hr & _);
    [done|by eapply chunk_ok_fits|].
  rewrite Hw in Hw'; injection Hw' as ->.
  unfold frame_gate. destruct (frame_complete cap s); [done|congruence].
Qed.

(** X6. The staging index is tied to the byte counter.  At every point a
    run can reach [ledIndex] is [totalBytesRead] modulo 3 and
    [receivedBlocks] is 0; so a byte consumed at a counter value that is
    not 2 modulo 3 changes neither strip, and the one consumed at a value
    that is 2 modulo 3 and below the frame size writes exactly the slot
    [totalBytesRead / 3] of the two strips read as one sequence. *)
Theorem counters_aligned st b :
  between_bytes cap block st →
  ledIndex st = totalBytesRead st mod 3 ∧
  receivedBlocks st = 0 ∧
  ∃ st', for_body cap st b = Some st' ∧
    (totalBytesRead st mod 3 ≠ 2 → strips st' = strips st) ∧
    (totalBytesRead st mod 3 = 2 → totalBytesRead st < frame →
       strips st' =
         <[Z.to_nat (totalBytesRead st / 3) := staged_pixel st b]> (strips st)).
Proof.
  intros Hbb. pose proof (between_bytes_spec st Hbb) as (Hwf & Hmax & Hidx).
  split; [done|]. split.
  - destruct Hbb as [st0 c j s H0 Hc Hs].
    pose proof (between_chunks_receivedBlocks st0 H0) as Hr0.
    apply between_chunks_steady in H0 as (Hwf0 & Hlt0 & _).
    assert (Hj : (length (take j c) ≤ length c)%nat)
      by (rewrite length_take; lia).
    destruct (for_loop_spec (take j c) st0) as (s' & Hs' & _ & _ & _ & Hr & _);
      [done|unfold chunk_ok in Hc; lia|].
    rewrite Hs in Hs'; injection Hs' as <-. congruence.
  - destruct (for_body_spec st b) as (st' & Hb & _ & _ & _ & _ & _ & _ & Hstr);
      [done|lia|].
    exists st'. split; [done|]. split.
    + intros Hne. by rewrite decide_False in Hstr by lia.
    + intros Heq Hlt. rewrite decide_True in Hstr; [done|].
      rewrite frame_eq in Hlt. split; [lia|divlia].
Qed.

End Properties.

(** * The claims on concrete inputs *)

Lemma chunk_boundary_invariance_witness :
  steady 2 (initial 2) ∧
  frame_aligned 2 0 [take 5 scenario_bytes; drop 5 scenario_bytes] ∧
  frame_aligned 2 0 [scenario_bytes] ∧
  is_Some (loop 2 (initial 2) [take 5 scenario_bytes; drop 5 scenario_bytes]) ∧
  loop 2 (initial 2) [take 5 scenario_bytes; drop 5 scenario_bytes]
  = loop 2 (initial 2) [scenario_bytes].
Proof.
  split; [evaluated|]. split; [evaluated|]. split; [evaluated|].
  apply (chunk_boundary_invariance 2 64); evaluated.
Defined.

(** C1 as stated fails on the shipped firmware: the two chunkings [paced]
    and [streamed] of the same 1800 bytes, two full frames, both made of
    chunks of 1 to 64 bytes, leave different pixels in strip #1 (and a
    different number of frames displayed and acknowledged). *)
Lemma chunk_boundary_invariance_fails :
  Forall (chunk_ok shipped_block) paced ∧
  Forall (chunk_ok shipped_block) streamed ∧
  concat paced = two_frames ∧ concat streamed = two_frames ∧
  Z.of_nat (length two_frames) = 2 * NUMBER_OF_BYTES_TO_READ shipped_strip ∧
  ∃ st1 st2,
    loop shipped_strip (initial shipped_strip) paced = Some st1 ∧
    loop shipped_strip (initial shipped_strip) streamed = Some st2 ∧
    leds1 st1 !! 0%nat = Some (px 132 133 134) ∧
    leds1 st2 !! 0%nat = Some (px 192 193 194) ∧
    strips st1 ≠ strips st2 ∧
    shows (output st1) = 2 ∧ shows (output st2) = 1.
Proof.
  split; [compute_done|]. split; [compute_done|].
  split; [by vm_compute|]. split; [by vm_compute|]. split; [by vm_compute|].
  exists (run_shipped paced), (run_shipped streamed).
  split; [by vm_compute|]. split; [by vm_compute|].
  split; [by vm_compute|]. split; [by vm_compute|].
  split; [|by vm_compute].
  intros Heq. apply (f_equal (λ l, l !! 0%nat)) in Heq.
  by vm_compute in Heq.
Qed.

(** C2 as stated fails on the shipped firmware: delivered as [streamed],
    1800 bytes, two full frames, are consumed and one acknowledgment is
    emitted; the gate fires once, when 960 bytes have been consumed, and
    not when the count reaches 900 or 1800. *)
Lemma one_ack_for_two_frames :
  Forall (chunk_ok shipped_block) streamed ∧
  Z.of_nat (length (concat streamed))
    = 2 * NUMBER_OF_BYTES_TO_READ shipped_strip ∧
  loop shipped_strip (initial shipped_strip) streamed
    = Some (run_shipped streamed) ∧
  acks (output (run_shipped streamed)) = 1 ∧
  shows (output (run_shipped streamed)) = 1 ∧
  Z.of_nat (length (concat (take 14 streamed))) = 896 ∧
  acks (output (after_blocks 14)) = 0 ∧
  Z.of_nat (length (concat (take 15 streamed))) = 960 ∧
  acks (output (after_blocks 15)) = 1.
Proof.
  split; [compute_done|].
  do 7 (split; [by vm_compute|]). by vm_compute.
Qed.

Lemma ack_per_frame_witness :
  steady 2 (initial 2) ∧
  frame_aligned 2 (totalBytesRead (initial 2)) [scenario_bytes; take 5 scenario_bytes] ∧
  Forall (chunk_ok 64) [thirteen] ∧
  (∃ st', loop 2 (initial 2) [scenario_bytes; take 5 scenario_bytes] = Some st' ∧
     acks (output st') = acks (output (initial 2))
       + (totalBytesRead (initial 2)
          + Z.of_nat (length (concat [scenario_bytes; take 5 scenario_bytes])))
         / NUMBER_OF_BYTES_TO_READ 2 ∧
     shows (output st') = shows (output (initial 2))
       + (totalBytesRead (initial 2)
          + Z.of_nat (length (concat [scenario_bytes; take 5 scenario_bytes])))
         / NUMBER_OF_BYTES_TO_READ 2 ∧
     totalBytesRead st' =
       (totalBytesRead (initial 2)
        + Z.of_nat (length (concat [scenario_bytes; take 5 scenario_bytes])))
       mod NUMBER_OF_BYTES_TO_READ 2) ∧
  (∃ st', loop 2 (initial 2) [thirteen] = Some st' ∧
     NUMBER_OF_BYTES_TO_READ 2
       * (acks (output st') - acks (output (initial 2))) + totalBytesRead st'
       ≤ totalBytesRead (initial 2) + Z.of_nat (length (concat [thirteen])) ∧
     shows (output st') - shows (output (initial 2))
       = acks (output st') - acks (output (initial 2))).
Proof.
  assert (Hst : steady 2 (initial 2)) by evaluated.
  assert (Hal : frame_aligned 2 (totalBytesRead (initial 2))
                  [scenario_bytes; take 5 scenario_bytes]) by evaluated.
  assert (Hok : Forall (chunk_ok 64) [thirteen]) by compute_done.
  split; [exact Hst|]. split; [exact Hal|]. split; [exact Hok|].
  destruct (ack_per_frame 2 64) with (st := initial 2) as [HA HB];
    [evaluated|evaluated|evaluated|exact Hst|].
  split; [exact (HA _ Hal)|exact (HB _ Hok)].
Defined.

Lemma gate_order_witness :
  steady 2 (initial 2) ∧
  Forall (chunk_ok 64) [scenario_bytes] ∧
  frame_complete 2 frame_done = true ∧
  (∃ st' frames, loop 2 (initial 2) [scenario_bytes] = Some st' ∧
     output st' = output (initial 2) ++ flat_map display_then_ack frames) ∧
  (let shown := FastLED_show frame_done in
   let acked := Serial_write ACK_BYTE shown in
   frame_gate 2 frame_done = reset_counters acked ∧
   output shown
     = output frame_done ++ [EvShow (leds1 frame_done) (leds2 frame_done)] ∧
   output acked = output shown ++ [EvWrite (uint8 ACK_BYTE)] ∧
   totalBytesRead acked = totalBytesRead frame_done ∧
   ledIndex acked = ledIndex frame_done ∧
   output (frame_gate 2 frame_done) = output acked ∧
   totalBytesRead (frame_gate 2 frame_done) = 0 ∧
   ledIndex (frame_gate 2 frame_done) = 0).
Proof.
  assert (Hst : steady 2 (initial 2)) by evaluated.
  assert (Hok : Forall (chunk_ok 64) [scenario_bytes]) by compute_done.
  assert (Hfc : frame_complete 2 frame_done = true) by evaluated.
  split; [exact Hst|]. split; [exact Hok|]. split; [exact Hfc|].
  destruct (gate_order 2 64) with (st := initial 2) (chunks := [scenario_bytes])
    as [HA HB]; [evaluated|evaluated|evaluated|exact Hst|exact Hok|].
  split; [exact HA|exact (HB _ Hfc)].
Defined.

Lemma ack_value_witness :
  Forall (chunk_ok 64) [scenario_bytes; thirteen] ∧
  between_chunks 2 64 (initial 2) ∧
  chunk_ok 64 scenario_bytes ∧
  NUMBER_OF_BYTES_TO_READ 2
    ≤ totalBytesRead (initial 2) + Z.of_nat (length scenario_bytes) ∧
  (∃ st' frames, loop 2 (initial 2) [scenario_bytes; thirteen] = Some st' ∧
     output st' = output (initial 2)
       ++ flat_map (λ f, [EvShow f.1 f.2; EvWrite xaa]) frames ∧
     acks (output st') = Z.of_nat (length frames) ∧
     ∀ b, EvWrite b ∈ output st' → b = xaa ∧ Byte.to_N b = 0xAA%N) ∧
  (∃ s st', for_loop 2 (initial 2) scenario_bytes = Some s ∧
     while_body 2 (initial 2) scenario_bytes = Some st' ∧
     output st'
       = output (initial 2) ++ [EvShow (leds1 s) (leds2 s); EvWrite xaa]).
Proof.
  assert (Hok : Forall (chunk_ok 64) [scenario_bytes; thirteen]) by compute_done.
  assert (Hc : chunk_ok 64 scenario_bytes) by evaluated.
  assert (Hfull : NUMBER_OF_BYTES_TO_READ 2
            ≤ totalBytesRead (initial 2) + Z.of_nat (length scenario_bytes))
    by evaluated.
  split; [exact Hok|]. split; [apply bc_initial|]. split; [exact Hc|].
  split; [exact Hfull|].
  destruct (ack_value 2 64) with (chunks := [scenario_bytes; thirteen])
    as [HA HB]; [evaluated|evaluated|evaluated|exact Hok|].
  split; [exact HA|].
  destruct (HB (initial 2) scenario_bytes (bc_initial 2 64) Hc)
    as (s & st' & Hs & Hw & Hfire & _).
  exists s, st'. split; [exact Hs|]. split; [exact Hw|]. exact (Hfire Hfull).
Defined.

Lemma pixel_routing_witness :
  wf 2 (initial 2) ∧
  totalBytesRead (initial 2) = 0 ∧ ledIndex (initial 2) = 0 ∧
  Z.of_nat (length (concat [take 5 scenario_bytes; drop 5 scenario_bytes]))
    ≤ NUMBER_OF_BYTES_TO_READ 2 ∧
  ∃ st', loop 2 (initial 2) [take 5 scenario_bytes; drop 5 scenario_bytes]
         = Some st' ∧
    ∀ o, 0 ≤ o →
      3 * (o / 3) + 2
        < Z.of_nat (length (concat [take 5 scenario_bytes; drop 5 scenario_bytes])) →
      let k := o / 3 in
      let pixel :=
        pixel_at (concat [take 5 scenario_bytes; drop 5 scenario_bytes])
          (Z.to_nat k) in
      ledPosition_at (3 * k) = k ∧
      ledPosition_at o = k ∧
      ledPosition_at (3 * k + 2) = k ∧
      (k < 2 → leds1 st' !! Z.to_nat k = Some pixel) ∧
      (2 ≤ k → leds2 st' !! Z.to_nat (k - 2) = Some pixel).
Proof.
  split; [evaluated|]. split; [evaluated|]. split; [evaluated|].
  split; [evaluated|].
  apply (pixel_routing 2 64); evaluated.
Defined.

(** C5. The scenario with two pixels per strip: however the twelve bytes
    are cut into chunks, the run from start-up ends with the two strips
    holding the four pixels in order, one display call of exactly those
    strips followed by one acknowledgment byte in the log (after the
    start-up banner), and the counter and the staging index at 0. *)
Theorem scenario_two_pixels chunks :
  concat chunks = scenario_bytes →
  ∃ st', loop 2 (initial 2) chunks = Some st' ∧
    leds1 st' = [px 255 0 0; px 0 255 0] ∧
    leds2 st' = [px 0 0 255; px 128 128 128] ∧
    output st' = output (initial 2)
      ++ [EvShow [px 255 0 0; px 0 255 0] [px 0 0 255; px 128 128 128];
          EvWrite (uint8 0xAA)] ∧
    shows (output st') = 1 ∧ acks (output st') = 1 ∧
    totalBytesRead st' = 0 ∧ ledIndex st' = 0.
Proof.
  intros Hcat.
  assert (Hal : frame_aligned 2 (totalBytesRead (initial 2)) chunks).
  { apply (within_frame_aligned 2); try evaluated.
    rewrite Hcat. by vm_compute. }
  rewrite (loop_bytewise 2 64) by (exact Hal || evaluated).
  rewrite Hcat.
  eexists. split; [by vm_compute|]. by vm_compute.
Qed.

Lemma scenario_two_pixels_witness :
  concat [take 5 scenario_bytes; drop 5 scenario_bytes] = scenario_bytes ∧
  ∃ st', loop 2 (initial 2) [take 5 scenario_bytes; drop 5 scenario_bytes]
         = Some st' ∧
    leds1 st' = [px 255 0 0; px 0 255 0] ∧
    leds2 st' = [px 0 0 255; px 128 128 128] ∧
    output st' = output (initial 2)
      ++ [EvShow [px 255 0 0; px 0 255 0] [px 0 0 255; px 128 128 128];
          EvWrite (uint8 0xAA)] ∧
    shows (output st') = 1 ∧ acks (output st') = 1 ∧
    totalBytesRead st' = 0 ∧ ledIndex st' = 0.
Proof.
  split; [evaluated|]. apply scenario_two_pixels. evaluated.
Defined.

Lemma between_bytes_mid_triplet : between_bytes 2 64 mid_triplet.
Proof.
  apply (bb_prefix 2 64 (initial 2) scenario_bytes 5);
    [apply bc_initial|evaluated|evaluated].
Defined.

Lemma between_bytes_past_frame : between_bytes 2 64 past_frame.
Proof.
  apply (bb_prefix 2 64 (initial 2) fifteen 14);
    [apply bc_initial|evaluated|evaluated].
Defined.

Lemma overrun_discarded_witness :
  between_bytes 2 64 past_frame ∧
  ledIndex past_frame = 2 ∧
  2 * 2 ≤ ledPosition_at (totalBytesRead past_frame) ∧
  ∃ st', for_body 2 past_frame "255"%byte = Some st' ∧
    totalBytesRead st' = totalBytesRead past_frame + 1 ∧
    Z.of_nat (length (leds1 past_frame)) = 2 ∧
    Z.of_nat (length (leds2 past_frame)) = 2 ∧
    let p := ledPosition_at (totalBytesRead past_frame) in
    (ledIndex past_frame ≠ 2 →
       leds1 st' = leds1 past_frame ∧ leds2 st' = leds2 past_frame) ∧
    (ledIndex past_frame = 2 → 2 * 2 ≤ p →
       leds1 st' = leds1 past_frame ∧ leds2 st' = leds2 past_frame) ∧
    (ledIndex past_frame = 2 → p < 2 →
       0 ≤ p < 2 ∧
       leds1 st' = <[Z.to_nat p := staged_pixel past_frame "255"%byte]>
                     (leds1 past_frame) ∧
       leds2 st' = leds2 past_frame) ∧
    (ledIndex past_frame = 2 → 2 ≤ p < 2 * 2 →
       0 ≤ p - 2 < 2 ∧
       leds1 st' = leds1 past_frame ∧
       leds2 st' = <[Z.to_nat (p - 2) := staged_pixel past_frame "255"%byte]>
                     (leds2 past_frame)).
Proof.
  split; [exact between_bytes_past_frame|].
  split; [evaluated|]. split; [evaluated|].
  apply (overrun_discarded 2 64);
    [evaluated|evaluated|evaluated|exact between_bytes_past_frame].
Defined.

Lemma staging_index_witness :
  between_bytes 2 64 mid_triplet ∧
  0 ≤ ledIndex mid_triplet ≤ 2 ∧
  ∃ s1 s2, stage_byte mid_triplet "255"%byte = Some s1 ∧
    hand_off 2 s1 = Some s2 ∧
    for_body 2 mid_triplet "255"%byte = Some (count_byte s2) ∧
    ledIndex s1 = ledIndex mid_triplet + 1 ∧
    1 ≤ ledIndex s1 ≤ 3 ∧
    (ledIndex s1 = 3 →
       ∃ r, route_pixel 2 s1 = Some r ∧ ledIndex r = 3 ∧ ledIndex s2 = 0) ∧
    (ledIndex s1 < 3 → s2 = s1) ∧
    0 ≤ ledIndex (count_byte s2) ≤ 2.
Proof.
  split; [exact between_bytes_mid_triplet|].
  apply (staging_index 2 64);
    [evaluated|evaluated|evaluated|exact between_bytes_mid_triplet].
Defined.

Lemma overlong_chunk_witness :
  between_chunks 2 64 (initial 2) ∧
  chunk_ok 64 thirteen ∧
  NUMBER_OF_BYTES_TO_READ 2
    < totalBytesRead (initial 2) + Z.of_nat (length thirteen) ∧
  let inside := Z.to_nat (NUMBER_OF_BYTES_TO_READ 2 - totalBytesRead (initial 2)) in
  ∃ s st', for_loop 2 (initial 2) (take inside thirteen) = Some s ∧
    totalBytesRead s = NUMBER_OF_BYTES_TO_READ 2 ∧
    while_body 2 (initial 2) thirteen = Some st' ∧
    output st' = output (initial 2) ++ display_then_ack (leds1 s, leds2 s) ∧
    leds1 st' = leds1 s ∧ leds2 st' = leds2 s ∧
    totalBytesRead st' = 0 ∧ ledIndex st' = 0.
Proof.
  split; [apply bc_initial|]. split; [evaluated|]. split; [evaluated|].
  apply (overlong_chunk 2 64);
    [evaluated|evaluated|evaluated|apply bc_initial|evaluated|evaluated].
Defined.

Lemma counter_bounds_witness :
  (∀ st, between_chunks shipped_strip shipped_block st →
     0 ≤ totalBytesRead st < NUMBER_OF_BYTES_TO_READ shipped_strip) ∧
  (∀ st, between_bytes shipped_strip shipped_block st →
     0 ≤ totalBytesRead st
       ≤ NUMBER_OF_BYTES_TO_READ shipped_strip + shipped_block - 1) ∧
  (∀ st chunk (j : nat) s,
     between_chunks shipped_strip shipped_block st →
     totalBytesRead st + Z.of_nat (length chunk)
       ≤ NUMBER_OF_BYTES_TO_READ shipped_strip →
     for_loop shipped_strip st (take j chunk) = Some s →
     0 ≤ totalBytesRead s ≤ NUMBER_OF_BYTES_TO_READ shipped_strip) ∧
  (∀ st chunk,
     between_chunks shipped_strip shipped_block st →
     chunk_ok shipped_block chunk →
     ∃ s st', for_loop shipped_strip st chunk = Some s ∧
       while_body shipped_strip st chunk = Some st' ∧
       totalBytesRead s = totalBytesRead st + Z.of_nat (length chunk) ∧
       ((totalBytesRead s < NUMBER_OF_BYTES_TO_READ shipped_strip ∧ st' = s) ∨
        (NUMBER_OF_BYTES_TO_READ shipped_strip ≤ totalBytesRead s ∧
         totalBytesRead st' = 0 ∧
         output st' = output st ++ display_then_ack (leds1 s, leds2 s)))).
Proof.
  apply (counter_bounds shipped_strip shipped_block); evaluated.
Defined.

(** C7 as stated fails on the shipped firmware: fifteen blocks of 64 bytes
    into [streamed], after the last byte of the fifteenth block and before
    the gate, the counter is 960, above the 900 bytes of a frame. *)
Lemma counter_exceeds_frame :
  between_bytes shipped_strip shipped_block (inside_block 14) ∧
  totalBytesRead (inside_block 14) = 960 ∧
  NUMBER_OF_BYTES_TO_READ shipped_strip = 900 ∧
  ¬ (0 ≤ totalBytesRead (inside_block 14)
       ≤ NUMBER_OF_BYTES_TO_READ shipped_strip).
Proof.
  split.
  - apply (bb_prefix shipped_strip shipped_block (after_blocks 14)
             (nth 14 streamed []) 64).
    + apply (between_chunks_loop shipped_strip shipped_block
               (take 14 streamed) (initial shipped_strip));
        [apply bc_initial|compute_done|by vm_compute].
    + by vm_compute.
    + by vm_compute.
  - split; [by vm_compute|]. split; [by vm_compute|].
    intros [_ H]. by vm_compute in H.
Qed.

(** * The further properties on concrete inputs *)

Lemma intake_serves_chunks_witness :
  steady 2 (initial 2) ∧
  ticks_fit 5 [] three_ticks ∧
  ∃ st' pending chunks,
    serve 2 5 (initial 2) [] three_ticks = Some (st', pending) ∧
    loop 2 (initial 2) chunks = Some st' ∧
    Forall (chunk_ok 5) chunks ∧
    concat chunks ++ pending = [] ++ concat (map arrived three_ticks).
Proof.
  assert (Hfit : ticks_fit 5 [] three_ticks) by evaluated.
  split; [evaluated|]. split; [exact Hfit|].
  apply (intake_serves_chunks 2 5);
    [evaluated|evaluated|evaluated|evaluated|exact Hfit].
Defined.

Lemma intake_overrun_witness :
  Z.of_nat (length ((([] ++ before_guard late_burst)
                     ++ before_first late_burst)
                    ++ before_second late_burst)) ≤ INT_MAX ∧
  intake 5 [] late_burst = Overrun ∧
  (let q0 := [] ++ before_guard late_burst in
   let q1 := q0 ++ before_first late_burst in
   let q2 := q1 ++ before_second late_burst in
   (intake 5 [] late_burst = Overrun ↔
      0 < Z.of_nat (length q0) ∧ Z.of_nat (length q1) < 5 ∧
      5 < Z.of_nat (length q2)) ∧
   (intake 5 [] late_burst = Overrun →
      ∀ st, poll 2 5 st [] late_burst = None) ∧
   (intake 5 [] late_burst ≠ Overrun →
      match intake 5 [] late_burst with
      | Idle q => q0 = [] ∧ q = q2
      | Read c q => chunk_ok 5 c ∧ c ++ q = q2
      | Overrun => False
      end)).
Proof.
  split; [evaluated|]. split; [evaluated|].
  apply (intake_overrun 2 5); evaluated.
Defined.

Lemma drain_in_blocks_witness :
  steady 2 (initial 2) ∧
  Z.of_nat (length scenario_bytes) ≤ INT_MAX ∧
  (length scenario_bytes ≤ 12)%nat ∧
  ∃ st' chunks,
    serve 2 5 (initial 2) scenario_bytes (replicate 12 quiet) = Some (st', []) ∧
    loop 2 (initial 2) chunks = Some st' ∧
    concat chunks = scenario_bytes ∧
    Forall (chunk_ok 5) chunks ∧
    (∀ (i : nat) c, chunks !! i = Some c → (S i < length chunks)%nat →
       Z.of_nat (length c) = 5) ∧
    Z.of_nat (length chunks) = (Z.of_nat (length scenario_bytes) + 5 - 1) / 5 ∧
    (scenario_bytes = [] → st' = initial 2).
Proof.
  split; [evaluated|]. split; [evaluated|]. split; [simpl; lia|].
  apply (drain_in_blocks 2 5); [evaluated|evaluated|evaluated|evaluated|evaluated|simpl; lia].
Defined.

Lemma frames_displayed_witness :
  wf 2 (initial 2) ∧
  Forall (λ f : list byte, Z.of_nat (length f) = NUMBER_OF_BYTES_TO_READ 2)
    [scenario_bytes; scenario_bytes] ∧
  frame_aligned 2 0 [take 5 scenario_bytes; drop 5 scenario_bytes; scenario_bytes] ∧
  concat [take 5 scenario_bytes; drop 5 scenario_bytes; scenario_bytes]
    = concat [scenario_bytes; scenario_bytes] ∧
  ∃ st', loop 2 (initial 2)
           [take 5 scenario_bytes; drop 5 scenario_bytes; scenario_bytes]
         = Some st' ∧
    output st' = output (initial 2)
      ++ flat_map (frame_shown 2) [scenario_bytes; scenario_bytes] ∧
    totalBytesRead st' = 0 ∧ ledIndex st' = 0 ∧
    ∀ f, last [scenario_bytes; scenario_bytes] = Some f →
      strips st' = decode_frame 2 f.
Proof.
  assert (Hall : Forall (λ f : list byte,
                   Z.of_nat (length f) = NUMBER_OF_BYTES_TO_READ 2)
                   [scenario_bytes; scenario_bytes])
    by (repeat constructor).
  split; [evaluated|]. split; [exact Hall|]. split; [evaluated|].
  split; [evaluated|].
  apply (frames_displayed 2 64);
    [evaluated|evaluated|evaluated|evaluated|evaluated|evaluated|exact Hall
    |evaluated|evaluated].
Defined.

Lemma partial_frame_witness :
  wf 2 (initial 2) ∧
  Z.of_nat (length (concat [take 5 scenario_bytes; take 6 (drop 5 scenario_bytes)]))
    < NUMBER_OF_BYTES_TO_READ 2 ∧
  ∃ st', loop 2 (initial 2) [take 5 scenario_bytes; take 6 (drop 5 scenario_bytes)]
         = Some st' ∧
    output st' = output (initial 2) ∧
    totalBytesRead st'
      = Z.of_nat (length (concat [take 5 scenario_bytes;
                                  take 6 (drop 5 scenario_bytes)])) ∧
    ledIndex st'
      = Z.of_nat (length (concat [take 5 scenario_bytes;
                                  take 6 (drop 5 scenario_bytes)])) mod 3 ∧
    ∀ k : nat,
      Z.of_nat (length (concat [take 5 scenario_bytes;
                                take 6 (drop 5 scenario_bytes)]))
        ≤ 3 * Z.of_nat k + 2 →
      strips st' !! k = strips (initial 2) !! k.
Proof.
  split; [evaluated|]. split; [evaluated|].
  apply (partial_frame 2 64); evaluated.
Defined.

Lemma same_but_stale_initial : same_but_stale (initial 2) initial_stale.
Proof.
  unfold same_but_stale. do 7 (split; [reflexivity|]).
  intros j Hj. simpl in Hj. lia.
Defined.

Lemma stale_bytes_unused_witness :
  steady 2 (initial 2) ∧
  same_but_stale (initial 2) initial_stale ∧
  Forall (chunk_ok 64) [thirteen; scenario_bytes] ∧
  ∃ a c, loop 2 (initial 2) [thirteen; scenario_bytes] = Some a ∧
    loop 2 initial_stale [thirteen; scenario_bytes] = Some c ∧
    same_but_stale a c.
Proof.
  assert (Hok : Forall (chunk_ok 64) [thirteen; scenario_bytes]) by compute_done.
  split; [evaluated|]. split; [exact same_but_stale_initial|].
  split; [exact Hok|].
  apply (stale_bytes_unused 2 64);
    [evaluated|evaluated|evaluated|evaluated|exact same_but_stale_initial
    |exact Hok].
Defined.

Lemma counters_aligned_witness :
  between_bytes 2 64 mid_triplet ∧
  ledIndex mid_triplet = totalBytesRead mid_triplet mod 3 ∧
  receivedBlocks mid_triplet = 0 ∧
  ∃ st', for_body 2 mid_triplet "255"%byte = Some st' ∧
    (totalBytesRead mid_triplet mod 3 ≠ 2 → strips st' = strips mid_triplet) ∧
    (totalBytesRead mid_triplet mod 3 = 2 →
     totalBytesRead mid_triplet < NUMBER_OF_BYTES_TO_READ 2 →
       strips st' =
         <[Z.to_nat (totalBytesRead mid_triplet / 3)
             := staged_pixel mid_triplet "255"%byte]> (strips mid_triplet)).
Proof.
  split; [exact between_bytes_mid_triplet|].
  apply (counters_aligned 2 64);
    [evaluated|evaluated|evaluated|exact between_bytes_mid_triplet].
Defined.

Lemma host_paced_witness :
  wf 2 (initial 2) ∧
  Forall (λ r : list Tick * nat,
            ticks_fit 5 [] r.1 ∧
            Z.of_nat (length (concat (map arrived r.1)))
              = NUMBER_OF_BYTES_TO_READ 2 ∧
            NUMBER_OF_BYTES_TO_READ 2 ≤ Z.of_nat r.2)
         two_rounds ∧
  ∃ st', serve 2 5 (initial 2) [] (paced_arrivals two_rounds) = Some (st', []) ∧
    output st'
      = output (initial 2)
        ++ flat_map (λ r, frame_shown 2 (concat (map arrived r.1))) two_rounds ∧
    totalBytesRead st' = 0 ∧ ledIndex st' = 0 ∧
    wf 2 st' ∧
    ∀ r, last two_rounds = Some r →
      strips st' = decode_frame 2 (concat (map arrived r.1)).
Proof.
  assert (Hall : Forall (λ r : list Tick * nat,
            ticks_fit 5 [] r.1 ∧
            Z.of_nat (length (concat (map arrived r.1)))
              = NUMBER_OF_BYTES_TO_READ 2 ∧
            NUMBER_OF_BYTES_TO_READ 2 ≤ Z.of_nat r.2) two_rounds)
    by (repeat constructor; by vm_compute).
  split; [evaluated|]. split; [exact Hall|].
  apply (host_paced 2 5);
    [evaluated|evaluated|evaluated|evaluated|evaluated|evaluated|exact Hall].
Defined.
